(** * SerMidi: the serial <-> virtual MIDI bridge of [main.py]

    A shallow embedding of the bridge engine: the leveled logger, the
    [dotdict] device descriptors and [findDevices], the reader thread started
    by [serial_set_callback], the two forwarding callbacks of [Serial2Midi],
    its [stop] operation and its [run] supervisor loop.

    The program is multi-threaded (the supervisor, one reader thread per
    opened serial handle, the MIDI library's dispatch thread and the signal
    handlers).  It is modelled as an interleaving of atomic actions over one
    shared [State]; everything the program cannot decide by itself (which
    ports are attached, in which order their inspections complete, whether
    an open, a read or a write raises) is an argument of the action. *)

From Stdlib Require Import HexString QArith.
From stdpp Require Import gmap strings list pretty.

Open Scope string_scope.

(** ** MIDI constants *)

Definition MIDI_SYSEX : Byte.byte := Byte.xf0.
Definition MIDI_SYSEX_TYPE_NON_REALTIME : Byte.byte := Byte.x7e.
Definition MIDI_SYSEX_END : Byte.byte := Byte.xf7.
Definition MIDI_SYSEX_GENERAL_INFORMATION : Byte.byte := Byte.x06.
Definition MIDI_SYSEX_REQUEST_IDENTITY : Byte.byte := Byte.x01.
Definition MIDI_SYSEX_REPLY_IDENTITY : Byte.byte := Byte.x02.

(** ** Exceptions

    Instances of Python's [Exception]; the classes the program names are
    constructors of their own. *)

Inductive Exn :=
| OSError
| SerialException
| TypeError
| IndexError
| OtherException (name : string).

Inductive Outcome (A : Type) :=
| Return (a : A)
| Raise (e : Exn).
Arguments Return {A} a.
Arguments Raise {A} e.

(** ** Logging *)

Inductive LogLevel := INFO | WARN | ERROR | DEBUG | VERBOSE.

#[global] Instance LogLevel_eq_dec : EqDecision LogLevel.
Proof. solve_decision. Defined.

Definition LOG_LEVELS : list LogLevel := [INFO].

(** What the process prints: a leveled line ([print(f"[{level.name}]", *a)])
    or a traceback ([traceback.print_exc()], or the threading hook for an
    exception that escapes a thread). *)
Inductive Output :=
| Print (level : LogLevel) (a : list string)
| Traceback (e : Exn).

(** [logger level] is either [lambda *a: None] or the printing lambda; as a
    function on the printed output. *)
Definition logger (level : LogLevel) (a : list string) (o : list Output)
  : list Output :=
  if bool_decide (level ∈ LOG_LEVELS) then o ++ [Print level a] else o.

(** [hex(b)] for a byte. *)
Definition hex (b : Byte.byte) : string := HexString.of_N (Byte.to_N b).

(** [self.ts()] reads the clock; the printed line keeps a marker for it. *)
Definition ts : string := "<ts>".

(** Truth value of an optional string ([None] and [''] are false). *)
Definition truthy (s : option string) : bool :=
  match s with
  | Some s => negb (String.eqb s "")
  | None => false
  end.

(** ** Device descriptors and discovery *)

Inductive PyVal :=
| PyNone
| PyStr (s : string)
| PyInt (z : Z).

(** What [serial.tools.list_ports.comports()] reports for one port. *)
Record ListPortInfo := {
  device : string;
  product : option string;
  vid : option Z;
  pid : option Z;
  manufacturer : option string
}.

Definition py_str (o : option string) : PyVal :=
  match o with Some s => PyStr s | None => PyNone end.
Definition py_int (o : option Z) : PyVal :=
  match o with Some z => PyInt z | None => PyNone end.

(** [class dotdict(dict)]: a dictionary whose [__getattr__] is [dict.get]. *)
Abbreviation dotdict := (gmap string PyVal).

(** [d.k] for a name [k] that [dict] does not define itself, as the five
    keys of a descriptor are: the lookup on the class fails and
    [__getattr__] answers with [d.get(k)], so a missing key reads as [None]
    and does not raise.  (A name such as [items] or [keys] is found on
    [dict] and never reaches [__getattr__]; no such name is read here.) *)
Definition dotdict_getattr (d : dotdict) (k : string) : PyVal :=
  default PyNone (d !! k).

Definition inspect (p : ListPortInfo) : dotdict :=
  <["usb_manufacturer" := py_str (manufacturer p)]>
  (<["usb_pid" := py_int (pid p)]>
  (<["usb_vid" := py_int (vid p)]>
  (<["usb_description" := py_str (product p)]>
  (<["device_path" := PyStr (device p)]> ∅)))).

(** [asyncio.as_completed(tasks)]: the tasks in the order they complete,
    which is not the order of the list (they are started from a set).  Any
    order can come out; [order] says which one: its head is the place the
    first task takes among the others, and so on. *)
Fixpoint as_completed {A} (tasks : list A) (order : list nat) : list A :=
  match tasks with
  | [] => []
  | t :: tasks =>
      let rest := as_completed tasks (tail order) in
      let k := (hd 0%nat order mod S (length rest))%nat in
      take k rest ++ t :: drop k rest
  end.

Section Discovery.

(** The host language's [eval] on a predicate source with the descriptor
    bound to [d]: the truth value of the result, or the exception raised
    while evaluating it. *)
Variable py_eval : string -> dotdict -> Outcome bool.

(** The loop of [findDevices] over the inspections as they complete:
    [ports] is [as_completed] of what [comports()] enumerates, so its order
    is the order of completion, not of enumeration; [continue] skips to the
    rest, [yield d] emits. *)
Fixpoint findDevices (eval_match : option string) (ports : list ListPortInfo)
  : list dotdict :=
  match ports with
  | [] => []
  | p :: ports =>
      let d := inspect p in
      if truthy eval_match then
        match py_eval (default "" eval_match) d with
        | Return true => d :: findDevices eval_match ports
        | Return false => findDevices eval_match ports
        | Raise _ => findDevices eval_match ports
        end
      else d :: findDevices eval_match ports
  end.

End Discovery.

(** ** The shared state *)

(** A thread started by [serial_set_callback]. *)
Inductive Thread := NotStarted | Running | Exited.

(** One opened serial handle and the objects created for it by [run]: the
    reader thread with its [stop_event], and the [interrupt] event the
    supervisor waits on. *)
Record Conn := {
  ser_closes : nat;                 (* calls of ser.close() *)
  written : list (list Byte.byte);  (* successful ser.write(buf) calls *)
  thread : Thread;
  stop_event : bool;
  interrupt : bool
}.

Definition new_conn : Conn :=
  {| ser_closes := 0; written := []; thread := NotStarted;
     stop_event := false; interrupt := false |}.

(** Where the supervisor coroutine [run] stands. *)
Inductive PC :=
| PStart                      (* before the virtual ports are opened *)
| PLoopHead                   (* while not self.should_stop *)
| POpenHead (path : string)   (* open_serial: while not self.should_stop *)
| POpenCall (path : string)   (* open_serial: inside serial.Serial(...) *)
| PSetup (ser : nat)          (* ser = open_serial() returned a handle *)
| PWait (ser : nat)           (* interrupt.wait() *)
| PTeardown (ser : nat)       (* stop_serial(); ser.close(); sleep *)
| PExit                       (* after the loop: close the virtual ports *)
| PStopped                    (* run() has returned *)
| PRaised (e : Exn).          (* run() has raised [e] *)

Record State := {
  pc : PC;
  should_stop : bool;               (* self.should_stop *)
  _interrupt : option nat;          (* self._interrupt: whose event it sets *)
  conns : list Conn;                (* serial handles, by order of opening *)
  callback : option nat;            (* midi_in callback, with the ser it holds *)
  midi_in_closes : nat;             (* calls of midi_in.close_port() *)
  midi_out_closes : nat;            (* calls of midi_out.close_port() *)
  sent : list (list Byte.byte);     (* midi_out.send_message(buf) calls *)
  out : list Output;                (* what was printed *)
  slept : list Q;                   (* time.sleep(t) calls *)
  discoveries : nat;                (* calls of findDevices *)
  open_calls : list string          (* serial.Serial(path, ...) calls *)
}.

Definition set_pc (v : PC) (s : State) : State :=
  {| pc := v; should_stop := should_stop s; _interrupt := _interrupt s;
     conns := conns s; callback := callback s;
     midi_in_closes := midi_in_closes s; midi_out_closes := midi_out_closes s;
     sent := sent s; out := out s; slept := slept s;
     discoveries := discoveries s; open_calls := open_calls s |}.

Definition set_should_stop (v : bool) (s : State) : State :=
  {| pc := pc s; should_stop := v; _interrupt := _interrupt s;
     conns := conns s; callback := callback s;
     midi_in_closes := midi_in_closes s; midi_out_closes := midi_out_closes s;
     sent := sent s; out := out s; slept := slept s;
     discoveries := discoveries s; open_calls := open_calls s |}.

Definition set__interrupt (v : option nat) (s : State) : State :=
  {| pc := pc s; should_stop := should_stop s; _interrupt := v;
     conns := conns s; callback := callback s;
     midi_in_closes := midi_in_closes s; midi_out_closes := midi_out_closes s;
     sent := sent s; out := out s; slept := slept s;
     discoveries := discoveries s; open_calls := open_calls s |}.

Definition set_conns (v : list Conn) (s : State) : State :=
  {| pc := pc s; should_stop := should_stop s; _interrupt := _interrupt s;
     conns := v; callback := callback s;
     midi_in_closes := midi_in_closes s; midi_out_closes := midi_out_closes s;
     sent := sent s; out := out s; slept := slept s;
     discoveries := discoveries s; open_calls := open_calls s |}.

Definition set_callback (v : option nat) (s : State) : State :=
  {| pc := pc s; should_stop := should_stop s; _interrupt := _interrupt s;
     conns := conns s; callback := v;
     midi_in_closes := midi_in_closes s; midi_out_closes := midi_out_closes s;
     sent := sent s; out := out s; slept := slept s;
     discoveries := discoveries s; open_calls := open_calls s |}.

Definition set_midi_closes (i o : nat) (s : State) : State :=
  {| pc := pc s; should_stop := should_stop s; _interrupt := _interrupt s;
     conns := conns s; callback := callback s;
     midi_in_closes := i; midi_out_closes := o;
     sent := sent s; out := out s; slept := slept s;
     discoveries := discoveries s; open_calls := open_calls s |}.

Definition set_sent (v : list (list Byte.byte)) (s : State) : State :=
  {| pc := pc s; should_stop := should_stop s; _interrupt := _interrupt s;
     conns := conns s; callback := callback s;
     midi_in_closes := midi_in_closes s; midi_out_closes := midi_out_closes s;
     sent := v; out := out s; slept := slept s;
     discoveries := discoveries s; open_calls := open_calls s |}.

Definition set_out (v : list Output) (s : State) : State :=
  {| pc := pc s; should_stop := should_stop s; _interrupt := _interrupt s;
     conns := conns s; callback := callback s;
     midi_in_closes := midi_in_closes s; midi_out_closes := midi_out_closes s;
     sent := sent s; out := v; slept := slept s;
     discoveries := discoveries s; open_calls := open_calls s |}.

Definition set_slept (v : list Q) (s : State) : State :=
  {| pc := pc s; should_stop := should_stop s; _interrupt := _interrupt s;
     conns := conns s; callback := callback s;
     midi_in_closes := midi_in_closes s; midi_out_closes := midi_out_closes s;
     sent := sent s; out := out s; slept := v;
     discoveries := discoveries s; open_calls := open_calls s |}.

Definition set_discoveries (v : nat) (s : State) : State :=
  {| pc := pc s; should_stop := should_stop s; _interrupt := _interrupt s;
     conns := conns s; callback := callback s;
     midi_in_closes := midi_in_closes s; midi_out_closes := midi_out_closes s;
     sent := sent s; out := out s; slept := slept s;
     discoveries := v; open_calls := open_calls s |}.

Definition set_open_calls (v : list string) (s : State) : State :=
  {| pc := pc s; should_stop := should_stop s; _interrupt := _interrupt s;
     conns := conns s; callback := callback s;
     midi_in_closes := midi_in_closes s; midi_out_closes := midi_out_closes s;
     sent := sent s; out := out s; slept := slept s;
     discoveries := discoveries s; open_calls := v |}.

(** Updates of one connection's fields. *)
Definition conn_close (c : Conn) : Conn :=
  {| ser_closes := S (ser_closes c); written := written c; thread := thread c;
     stop_event := stop_event c; interrupt := interrupt c |}.
Definition conn_write (buf : list Byte.byte) (c : Conn) : Conn :=
  {| ser_closes := ser_closes c; written := written c ++ [buf];
     thread := thread c; stop_event := stop_event c; interrupt := interrupt c |}.
Definition conn_thread (t : Thread) (c : Conn) : Conn :=
  {| ser_closes := ser_closes c; written := written c; thread := t;
     stop_event := stop_event c; interrupt := interrupt c |}.
Definition conn_stop_event (b : bool) (c : Conn) : Conn :=
  {| ser_closes := ser_closes c; written := written c; thread := thread c;
     stop_event := b; interrupt := interrupt c |}.
Definition conn_interrupt (b : bool) (c : Conn) : Conn :=
  {| ser_closes := ser_closes c; written := written c; thread := thread c;
     stop_event := stop_event c; interrupt := b |}.

Definition on_conn (h : nat) (f : Conn -> Conn) (s : State) : State :=
  set_conns (alter f h (conns s)) s.

(** ** Code that mutates the state and may raise *)

Definition M (A : Type) : Type := State -> Outcome A * State.

Definition ret {A} (a : A) : M A := fun s => (Return a, s).
Definition raise {A} (e : Exn) : M A := fun s => (Raise e, s).
Definition bind {A B} (m : M A) (k : A -> M B) : M B :=
  fun s => match m s with
           | (Return a, s') => k a s'
           | (Raise e, s') => (Raise e, s')
           end.
(** [try: m except Exception as e: h e] *)
Definition try_except {A} (m : M A) (h : Exn -> M A) : M A :=
  fun s => match m s with
           | (Return a, s') => (Return a, s')
           | (Raise e, s') => h e s'
           end.
Definition modify (f : State -> State) : M unit := fun s => (Return tt, f s).
Definition final {A} (m : M A) (s : State) : State := snd (m s).

Declare Scope M_scope.
Notation "'let*' x ':=' m 'in' k" := (bind m (fun x => k))
  (at level 10, x name, m at level 200, k at level 200) : M_scope.
Notation "m ;; k" := (bind m (fun _ => k))
  (at level 100, k at level 200, right associativity) : M_scope.
Open Scope M_scope.

(** The five loggers. *)
Definition log (level : LogLevel) (a : list string) : M unit :=
  modify (fun s => set_out (logger level a (out s)) s).
Definition info := log INFO.
Definition warn := log WARN.
Definition error := log ERROR.
Definition debug := log DEBUG.
Definition verbose := log VERBOSE.

Definition logException (e : Exn) : M unit :=
  error ["<exception>"] ;;
  modify (fun s => set_out (out s ++ [Traceback e]) s).

(** The lengths [time.sleep] takes.  [t] is the value of the float, in
    seconds (the infinite floats and not-a-number, which [time.sleep]
    rejects as well, have no value); the length is converted to a 64-bit
    count of nanoseconds and must fit it and not be negative. *)
Definition time_sleep_accepts (t : Q) : bool :=
  Qle_bool 0 t && negb (Qle_bool (2 ^ 63) (t * 10 ^ 9)).

(** [time.sleep(t)]: sleeps, or raises without sleeping: [OverflowError]
    when the conversion fails, [ValueError] for a negative length. *)
Definition sleep (t : Q) : M unit :=
  if time_sleep_accepts t then
    modify (fun s => set_slept (slept s ++ [t]) s)
  else if Qle_bool 0 t then raise (OtherException "OverflowError")
  else if Qle_bool (- 2 ^ 63) (t * 10 ^ 9) then
    raise (OtherException "ValueError")
  else raise (OtherException "OverflowError").

(** [buf[i]] *)
Definition index (buf : list Byte.byte) (i : nat) : M Byte.byte :=
  match buf !! i with
  | Some b => ret b
  | None => raise IndexError
  end.

(** ** The bridge *)

(** The constructor arguments of [class Serial2Midi]. *)
Record Serial2Midi := {
  name : string;
  baud_rate : Z;
  sleep_interval : Q;
  eval_match : option string;
  manual_device : option string;
  midi_suffix : option string;
  forced_midi_name : option string
}.

(** What one [serial_dev.read(3)] does: bytes (none on timeout) or an
    exception. *)
Inductive ReadResult :=
| Data (data : list Byte.byte)
| ReadRaises (e : Exn).

(** What the supervisor finds outside when it takes a step: the attached
    ports as [comports()] enumerates them, the order in which their
    inspections complete (see [as_completed]), and whether
    [serial.Serial(...)] raises [SerialException]. *)
Record World := {
  comports : list ListPortInfo;
  order : list nat;
  open_error : option string
}.

Definition str (v : PyVal) : string :=
  match v with
  | PyNone => "None"
  | PyStr s => s
  | PyInt z => pretty z
  end.

(** [Serial2Midi.stop] *)
Definition stop : M unit :=
  modify (set_should_stop true) ;;
  fun s => match _interrupt s with
           | Some h => modify (on_conn h (conn_interrupt true)) s
           | None => ret tt s
           end.

(** [midi_out.send_message(buf)] *)
Definition send_message (buf : list Byte.byte) : M unit :=
  modify (fun s => set_sent (sent s ++ [buf]) s).

(** [ser.write(buf)]; [w] is the exception the transport raises, if any. *)
Definition ser_write (ser : nat) (buf : list Byte.byte) (w : option Exn)
  : M unit :=
  match w with
  | Some e => raise e
  | None => modify (on_conn ser (conn_write buf))
  end.

(** [Serial2Midi.process_serial_in] *)
Definition process_serial_in (buf : list Byte.byte) : M unit :=
  if (length buf =? 3)%nat then
    let* b0 := index buf 0 in
    let* b1 := index buf 1 in
    let* b2 := index buf 2 in
    info [ts; "[SER → MIDI]"; hex b0; hex b1; hex b2] ;;
    send_message buf
  else ret tt.

(** [Serial2Midi.process_midi_out] *)
Definition process_midi_out (buf : list Byte.byte) (ser : nat)
    (w : option Exn) : M unit :=
  try_except
    (match buf with
     | [] => ret tt
     | _ =>
         let* b0 := index buf 0 in
         let* b1 := index buf 1 in
         let* b2 := index buf 2 in
         info [ts; "[MIDI → SER]"; hex b0; hex b1; hex b2] ;;
         ser_write ser buf w
     end)
    (fun e => logException e ;; stop).

(** [serial_dev.read(3)] *)
Definition serial_read (r : ReadResult) : M (list Byte.byte) :=
  match r with
  | Data data => ret data
  | ReadRaises e => raise e
  end.

(** The [except (OSError, serial.SerialException, TypeError)] clause. *)
Definition worker_catches (e : Exn) : bool :=
  match e with
  | OSError | SerialException | TypeError => true
  | _ => false
  end.

(** One pass of the [while] loop of [worker] in [serial_set_callback]; the
    thread of handle [serial_dev] runs it until it exits.  An exception the
    [except] clause does not name escapes the thread, which dies with a
    traceback.  A pass is one step here: the test of [stop_event], the read
    and the callback.  In the program the event is tested at the head of the
    loop only, so an event set while a read is underway is seen by the next
    pass; nothing below is said of a thread between its test and its read. *)
Definition worker (serial_dev : nat) (cb : list Byte.byte -> M unit)
    (r : ReadResult) : M unit :=
  fun s =>
    match conns s !! serial_dev with
    | Some c =>
        match thread c with
        | Running =>
            if stop_event c then
              modify (on_conn serial_dev (conn_thread Exited)) s
            else
              match (let* data := serial_read r in
                     match data with [] => ret tt | _ => cb data end) s with
              | (Return _, s') => (Return tt, s')
              | (Raise e, s') =>
                  if worker_catches e then
                    modify (on_conn serial_dev (conn_thread Exited)) s'
                  else
                    modify (fun s => on_conn serial_dev (conn_thread Exited)
                                       (set_out (out s ++ [Traceback e]) s)) s'
              end
        | _ => ret tt s
        end
    | None => ret tt s
    end.

(** [serial_set_callback]: starts the reader thread of [serial_dev] and
    returns the handle whose [stop_event] the returned lambda sets.  As in
    the source, [on_exception] is received and not used. *)
Definition serial_set_callback (serial_dev : nat)
    (cb : list Byte.byte -> M unit) (on_exception : Exn -> M unit) : M nat :=
  modify (on_conn serial_dev
            (fun c => conn_thread Running (conn_stop_event false c))) ;;
  ret serial_dev.

Definition stop_serial (h : nat) : M unit :=
  modify (on_conn h (conn_stop_event true)).

(** Where an exception that escapes [run] leaves the supervisor. *)
Definition escape (r : Outcome unit * State) : State :=
  match r with
  | (Return _, s) => s
  | (Raise e, s) => set_pc (PRaised e) (set_out (out s ++ [Traceback e]) s)
  end.

Section Bridge.

Variable py_eval : string -> dotdict -> Outcome bool.
Variable self : Serial2Midi.

Definition midi_name : string :=
  if truthy (forced_midi_name self) then default "" (forced_midi_name self)
  else name self ++
       (if truthy (midi_suffix self)
        then "-" ++ default "" (midi_suffix self) else "").

(** [on_serial_error], the closure [run] hands to [serial_set_callback]. *)
Definition on_serial_error (ser : nat) (e : Exn) : M unit :=
  logException e ;;
  modify (on_conn ser (conn_interrupt true)).

(** One step of [Serial2Midi.run], from where [pc] stands. *)
Definition run (w : World) : M unit :=
  fun s =>
    match pc s with
    | PStart =>
        (info ["MIDI device created: " ++ midi_name] ;;
         modify (set_pc PLoopHead)) s
    | PLoopHead =>
        if should_stop s then modify (set_pc PExit) s
        else
          if truthy (manual_device self) then
            let device_path := default "" (manual_device self) in
            (info ["Using serial device: " ++ device_path] ;;
             modify (set_pc (POpenHead device_path))) s
          else
            (modify (fun s => set_discoveries (S (discoveries s)) s) ;;
             match findDevices py_eval (eval_match self)
                     (as_completed (comports w) (order w)) with
             | [] =>
                 info ["No serial devices found"] ;;
                 sleep (sleep_interval self)
             | d :: _ =>
                 let device_path := str (dotdict_getattr d "device_path") in
                 info ["Using serial device: " ++ device_path] ;;
                 modify (set_pc (POpenHead device_path))
             end) s
    | POpenHead device_path =>
        if should_stop s then modify (set_pc PLoopHead) s
        else modify (set_pc (POpenCall device_path)) s
    | POpenCall device_path =>
        (modify (fun s => set_open_calls (open_calls s ++ [device_path]) s) ;;
         match open_error w with
         | None =>
             fun s => modify (fun s => set_pc (PSetup (length (conns s)))
                                         (set_conns (conns s ++ [new_conn]) s)) s
         | Some e =>
             warn ["Serial open failed: " ++ e] ;;
             sleep (sleep_interval self) ;;
             modify (set_pc (POpenHead device_path))
         end) s
    | PSetup ser =>
        (modify (on_conn ser (conn_interrupt false)) ;;
         modify (set__interrupt (Some ser)) ;;
         modify (set_callback (Some ser)) ;;
         serial_set_callback ser process_serial_in (on_serial_error ser) ;;
         modify (set_pc (PWait ser))) s
    | PWait ser =>
        match conns s !! ser with
        | Some c =>
            if interrupt c then modify (set_pc (PTeardown ser)) s
            else ret tt s
        | None => ret tt s
        end
    | PTeardown ser =>
        (stop_serial ser ;;
         modify (on_conn ser conn_close) ;;
         sleep (sleep_interval self) ;;
         modify (set_pc PLoopHead)) s
    | PExit =>
        (modify (fun s => set_midi_closes (S (midi_in_closes s))
                            (S (midi_out_closes s)) s) ;;
         info ["Exited cleanly"] ;;
         modify (set_pc PStopped)) s
    | PStopped => ret tt s
    | PRaised _ => ret tt s
    end.

(** The supervisor moves: a step of [run]; an exception that escapes [run]
    ends it, with the traceback of the uncaught exception. *)
Definition supervise (w : World) (s : State) : State := escape (run w s).

(** The atomic actions of the running process. *)
Inductive Action :=
| Run (w : World)                                  (* the supervisor moves *)
| Worker (h : nat) (r : ReadResult)                (* reader thread of [h] *)
| MidiIn (msg : list Byte.byte) (w : option Exn)   (* a virtual-input message *)
| Signal.                                          (* SIGINT, SIGTERM, SIGHUP *)

Definition step (a : Action) (s : State) : State :=
  match a with
  | Run w => supervise w s
  | Worker h r => final (worker h process_serial_in r) s
  | MidiIn msg w =>
      match callback s with
      | Some ser => final (process_midi_out msg ser w) s
      | None => s
      end
  | Signal => final stop s
  end.

Definition exec (acts : list Action) (s : State) : State :=
  fold_left (fun s a => step a s) acts s.

End Bridge.

Definition init : State :=
  {| pc := PStart; should_stop := false; _interrupt := None; conns := [];
     callback := None; midi_in_closes := 0; midi_out_closes := 0;
     sent := []; out := []; slept := []; discoveries := 0; open_calls := [] |}.

(** ** Notions used in the statements *)

Open Scope list_scope.

(** The reader thread of handle [h] is in its loop and has not been told to
    stop. *)
Definition reader_running (h : nat) (s : State) : bool :=
  match conns s !! h with
  | Some c =>
      match thread c with
      | Running => negb (stop_event c)
      | _ => false
      end
  | None => false
  end.



(** The supervisor is inside the [while] loop of [open_serial]. *)
Definition in_retry_loop (s : State) : bool :=
  match pc s with
  | POpenHead _ | POpenCall _ => true
  | _ => false
  end.

(** The part of the state that decides what the supervisor does next and
    what has been closed. *)
Definition control (s : State) :=
  (pc s, should_stop s, _interrupt s, callback s,
   (midi_in_closes s, midi_out_closes s),
   ser_closes <$> conns s, interrupt <$> conns s).

(** No serial handle has been opened yet. *)
Definition fresh (s : State) : Prop :=
  ser_closes <$> conns s = [] /\ callback s = None /\ _interrupt s = None.

(** The one serial handle has been torn down after a stop. *)
Definition torn_down (s : State) : Prop :=
  should_stop s = true /\ callback s = Some 0 /\ _interrupt s = Some 0
  /\ ser_closes <$> conns s = [1].

(** The invariant of [run]: what holds at each place of the supervisor. *)
Definition Inv (s : State) : Prop :=
  midi_in_closes s = midi_out_closes s
  /\ midi_in_closes s = match pc s with PStopped => 1 | _ => 0 end
  /\ match pc s with
     | PStart | POpenHead _ | POpenCall _ => fresh s
     | PSetup h =>
         h = 0 /\ callback s = None /\ _interrupt s = None
         /\ ser_closes <$> conns s = [0]
     | PWait h =>
         h = 0 /\ callback s = Some 0 /\ _interrupt s = Some 0
         /\ ser_closes <$> conns s = [0]
         /\ (interrupt <$> conns s = [true] -> should_stop s = true)
     | PTeardown h =>
         h = 0 /\ callback s = Some 0 /\ _interrupt s = Some 0
         /\ ser_closes <$> conns s = [0] /\ should_stop s = true
     | PLoopHead | PRaised _ => fresh s \/ torn_down s
     | PExit | PStopped => should_stop s = true /\ (fresh s \/ torn_down s)
     end.

(** A stop has been requested with the connection set up: the supervisor is
    at or past its wait, the event it waits on is set, and [run] has not
    raised. *)
Definition Stopping (s : State) : Prop :=
  Inv s /\ should_stop s = true /\ callback s = Some 0
  /\ (forall h, pc s = PWait h -> interrupt <$> conns s = [true])
  /\ (forall e, pc s <> PRaised e).

(** How many calls of [time.sleep] the supervisor can still reach once a
    stop is requested: one while an open attempt or a connection is
    underway, none elsewhere. *)
Definition sleeps_left (s : State) : nat :=
  match pc s with
  | POpenCall _ | PSetup _ | PWait _ | PTeardown _ => 1
  | _ => 0
  end.

(** Supervisor steps left before [run] returns, once [Stopping]. *)
Definition rank (s : State) : nat :=
  match pc s with
  | PStopped => 0
  | PExit => 1
  | PLoopHead => 2
  | PTeardown _ => 3
  | PWait _ => 4
  | _ => 5
  end.

Section Schedules.

Variable py_eval : string -> dotdict -> Outcome bool.
Variable self : Serial2Midi.

(** How many times the supervisor moves in a schedule. *)
Fixpoint runs (acts : list Action) : nat :=
  match acts with
  | [] => 0
  | Run _ :: acts => S (runs acts)
  | _ :: acts => runs acts
  end.

(** A schedule of [n] rounds of the retry loop in which every open fails
    with [e]: the flag check, then the failing open. *)
Fixpoint failed_opens (n : nat) (e : string) : list Action :=
  match n with
  | 0 => []
  | S n =>
      Run {| comports := []; order := []; open_error := Some e |}
      :: Run {| comports := []; order := []; open_error := Some e |}
      :: failed_opens n e
  end.

(** The supervisor only ever opens the configured manual device and has
    never run discovery. *)
Definition manual_ok (s : State) : Prop :=
  discoveries s = 0
  /\ Forall (fun q => q = default ""%string (manual_device self)) (open_calls s)
  /\ match pc s with
     | POpenHead q | POpenCall q => q = default ""%string (manual_device self)
     | _ => True
     end.

End Schedules.

(** What only the supervisor changes. *)
Definition plan (s : State) := (pc s, slept s, discoveries s, open_calls s).

(** ** Sample inputs *)

(** A predicate such as ['Arduino' == d.usb_manufacturer.strip()]: it raises
    on a port whose manufacturer is [None]. *)
Definition arduino_only : string -> dotdict -> Outcome bool :=
  fun _ d =>
    match dotdict_getattr d "usb_manufacturer" with
    | PyStr m => Return (bool_decide (m = "Arduino"%string))
    | _ => Raise (OtherException "AttributeError")
    end.

Definition uno : ListPortInfo :=
  {| device := "/dev/ttyACM0"; product := Some "Uno"%string;
     vid := Some 9025%Z; pid := Some 67%Z;
     manufacturer := Some "Arduino"%string |}.

Definition bare_uart : ListPortInfo :=
  {| device := "/dev/ttyS0"; product := None; vid := None; pid := None;
     manufacturer := None |}.

(** The configuration of the scenario with a manual device. *)
Definition test_bridge : Serial2Midi :=
  {| name := "Serial2MIDI"; baud_rate := 9600; sleep_interval := 3 # 10;
     eval_match := None; manual_device := Some "/dev/ttyTEST"%string;
     midi_suffix := None; forced_midi_name := None |}.

Definition open_ok : World :=
  {| comports := []; order := []; open_error := None |}.
Definition open_busy : World :=
  {| comports := []; order := []; open_error := Some "busy"%string |}.

(** Start, pick the device, pass the flag check of [open_serial]. *)
Definition to_open_call : list Action :=
  [Run open_ok; Run open_ok; Run open_ok].

(** ... then open at once, set the connection up and wait. *)
Definition to_active : list Action :=
  to_open_call ++ [Run open_ok; Run open_ok].

(** The defaults of the command line, with a predicate and no manual
    device. *)
Definition auto_bridge : Serial2Midi :=
  {| name := "Serial2MIDI"; baud_rate := 115200; sleep_interval := 3 # 10;
     eval_match := Some "d.usb_manufacturer.strip() == 'Arduino'"%string;
     manual_device := None; midi_suffix := None; forced_midi_name := None |}.

Definition uart_only : World :=
  {| comports := [bare_uart]; order := []; open_error := None |}.
Definition uart_then_uno : World :=
  {| comports := [bare_uart; uno]; order := []; open_error := None |}.

Definition nano : ListPortInfo :=
  {| device := "/dev/ttyUSB0"; product := Some "Nano"%string;
     vid := Some 9025%Z; pid := Some 88%Z;
     manufacturer := Some "Arduino"%string |}.

(** Two Arduinos; the inspection of the one enumerated second completes
    first. *)
Definition nano_before_uno : World :=
  {| comports := [uno; nano]; order := [1]; open_error := None |}.

Definition note_on : list Byte.byte := [Byte.x90; Byte.x3c; Byte.x40].
Definition program_change : list Byte.byte := [Byte.xc0; Byte.x05].
Definition identity_request : list Byte.byte :=
  [MIDI_SYSEX; MIDI_SYSEX_TYPE_NON_REALTIME; Byte.x7f;
   MIDI_SYSEX_GENERAL_INFORMATION; MIDI_SYSEX_REQUEST_IDENTITY;
   MIDI_SYSEX_END].

(** ** The listing mode and further notions *)

(** The keys of a descriptor in the order [inspect] inserts them, which is
    the order in which the dictionary is iterated. *)
Definition descriptor_keys : list string :=
  ["device_path"; "usb_description"; "usb_vid"; "usb_pid";
   "usb_manufacturer"]%string.

(** [d.items()] for a descriptor [d]. *)
Definition items (d : dotdict) : list (string * PyVal) :=
  omap (fun k => (fun v => (k, v)) <$> d !! k) descriptor_keys.

Section Listing.

Variable py_eval : string -> dotdict -> Outcome bool.

(** [listDevices]: the lines it prints, for the ports [comports()]
    enumerates and the order in which their inspections complete. *)
Definition listDevices (eval_match : option string)
    (ports : list ListPortInfo) (order : list nat) : list string :=
  flat_map
    (fun d => map (fun kv => (kv.1 ++ ": " ++ str kv.2)%string) (items d)
              ++ [""%string])
    (findDevices py_eval eval_match (as_completed ports order)).

(** The port passes the filter of [findDevices]. *)
Definition matching (eval_match : option string) (p : ListPortInfo) : bool :=
  if truthy eval_match then
    match py_eval (default ""%string eval_match) (inspect p) with
    | Return true => true
    | _ => false
    end
  else true.

End Listing.

(** The block [listDevices] prints for one port. *)
Definition listing (p : ListPortInfo) : list string :=
  [("device_path: " ++ device p)%string;
   ("usb_description: " ++ str (py_str (product p)))%string;
   ("usb_vid: " ++ str (py_int (vid p)))%string;
   ("usb_pid: " ++ str (py_int (pid p)))%string;
   ("usb_manufacturer: " ++ str (py_str (manufacturer p)))%string;
   ""%string].

(** An action that asks nobody to stop: the supervisor and the readers move,
    messages are empty or written without an error. *)
Definition quiet (a : Action) : bool :=
  match a with
  | Run _ | Worker _ _ => true
  | MidiIn [] _ => true
  | MidiIn (_ :: _ :: _ :: _) None => true
  | MidiIn _ _ => false
  | Signal => false
  end.

(** A printed item that is an [INFO] line or a traceback. *)
Definition info_or_traceback (o : Output) : Prop :=
  match o with
  | Print level _ => level = INFO
  | Traceback _ => True
  end.

(** Everything written to the serial handles, handle by handle. *)
Definition all_written (s : State) : list (list Byte.byte) :=
  concat (written <$> conns s).

(** * Discovery *)

Section DiscoveryFacts.

Variable py_eval : string -> dotdict -> Outcome bool.

Lemma findDevices_app eval_match (pre post : list ListPortInfo) :
  findDevices py_eval eval_match (pre ++ post)
  = findDevices py_eval eval_match pre ++ findDevices py_eval eval_match post.
Proof.
  induction pre as [|p pre IH]; simpl; [done|].
  destruct (truthy eval_match); [|by rewrite IH].
  destruct (py_eval _ _) as [[]|]; by rewrite ?IH.
Qed.

(** Whatever is yielded under a predicate made the predicate true. *)
Lemma findDevices_sound eval_match ports d :
  truthy eval_match = true ->
  d ∈ findDevices py_eval eval_match ports ->
  py_eval (default "" eval_match) d = Return true.
Proof.
  intros Ht. induction ports as [|p ports IH]; simpl.
  - by intros ?%elem_of_nil.
  - rewrite Ht. destruct (py_eval _ (inspect p)) as [[]|] eqn:E; auto.
    intros [->|?]%elem_of_cons; auto.
Qed.

(** C7. A device on which evaluating the predicate raises an exception is
    left out of what [findDevices] yields, and the devices before and after
    it are treated exactly as if it were not attached: discovery goes on. *)
Theorem findDevices_skips_raising eval_match pre p post e :
  truthy eval_match = true ->
  py_eval (default "" eval_match) (inspect p) = Raise e ->
  (inspect p ∉ findDevices py_eval eval_match (pre ++ p :: post))
  /\ findDevices py_eval eval_match (pre ++ p :: post)
     = findDevices py_eval eval_match (pre ++ post).
Proof.
  intros Ht He. split.
  - intros Hin. apply (findDevices_sound _ _ _ Ht) in Hin. congruence.
  - rewrite !findDevices_app. simpl. by rewrite Ht, He.
Qed.

End DiscoveryFacts.

(** * The forwarding callbacks *)

Lemma fmap_alter_irrelevant {B} (f : Conn -> B) (g : Conn -> Conn) h
    (l : list Conn) :
  (forall c, f (g c) = f c) -> f <$> alter g h l = f <$> l.
Proof.
  intros Hfg. revert h. induction l as [|c l IH]; intros [|h]; try done.
  - cbn. by rewrite Hfg.
  - cbn. f_equal. apply IH.
Qed.

Lemma alter_idempotent (g : Conn -> Conn) h (l : list Conn) :
  (forall c, g (g c) = g c) -> alter g h (alter g h l) = alter g h l.
Proof.
  intros Hg. revert h. induction l as [|c l IH]; intros [|h]; try done.
  - cbn. by rewrite Hg.
  - cbn. f_equal. apply IH.
Qed.

Lemma process_serial_in_frame b0 b1 b2 s :
  process_serial_in [b0; b1; b2] s
  = (Return tt,
     set_sent (sent s ++ [[b0; b1; b2]])
       (set_out (out s ++ [Print INFO [ts; "[SER → MIDI]";
                                       hex b0; hex b1; hex b2]]) s)).
Proof. reflexivity. Qed.

Lemma process_serial_in_drop buf s :
  length buf <> 3 -> process_serial_in buf s = (Return tt, s).
Proof.
  intros Hlen. unfold process_serial_in.
  destruct (Nat.eqb_spec (length buf) 3); [done|reflexivity].
Qed.

(** Every read is handled without raising, and adds the buffer to what was
    sent exactly when it has three bytes. *)
Lemma process_serial_in_spec buf s :
  exists s', process_serial_in buf s = (Return tt, s')
    /\ sent s' = sent s ++ filter (fun b => length b = 3) [buf]
    /\ conns s' = conns s.
Proof.
  destruct (decide (length buf = 3)) as [Hlen|Hlen].
  - destruct buf as [|b0 [|b1 [|b2 [|]]]]; try discriminate Hlen.
    eexists. split; [apply process_serial_in_frame|]. by destruct s.
  - exists s. split; [by apply process_serial_in_drop|].
    rewrite filter_cons_False, filter_nil by done.
    by rewrite app_nil_r.
Qed.

(** One pass of a running reader over data that was read. *)
Lemma worker_data h data s :
  reader_running h s = true ->
  exists s', worker h process_serial_in (Data data) s = (Return tt, s')
    /\ sent s' = sent s ++ filter (fun b => length b = 3) [data]
    /\ conns s' = conns s.
Proof.
  unfold reader_running, worker. intros Hrun.
  destruct (conns s !! h) as [c|]; [|done].
  destruct (thread c); try done.
  destruct (stop_event c); [done|].
  destruct data as [|b data].
  - exists s. simpl. by rewrite app_nil_r.
  - destruct (process_serial_in_spec (b :: data) s) as (s' & Hs' & ? & ?).
    exists s'. cbn [bind serial_read ret]. by rewrite Hs'.
Qed.

Lemma reader_running_conns h s s' :
  conns s' = conns s -> reader_running h s' = reader_running h s.
Proof. unfold reader_running. by intros ->. Qed.

(** The outbound callback on a message of at least three bytes whose write
    goes through: one log line, then the whole message in one write. *)
Lemma process_midi_out_writes b0 b1 b2 rest ser s :
  process_midi_out (b0 :: b1 :: b2 :: rest) ser None s
  = (Return tt,
     on_conn ser (conn_write (b0 :: b1 :: b2 :: rest))
       (set_out (out s ++ [Print INFO [ts; "[MIDI → SER]";
                                       hex b0; hex b1; hex b2]]) s)).
Proof. reflexivity. Qed.

(** The same message when the write raises [e]: the log line, then the
    handler. *)
Lemma process_midi_out_write_raises b0 b1 b2 rest ser e s :
  process_midi_out (b0 :: b1 :: b2 :: rest) ser (Some e) s
  = (logException e ;; stop)
      (set_out (out s ++ [Print INFO [ts; "[MIDI → SER]";
                                      hex b0; hex b1; hex b2]]) s).
Proof. reflexivity. Qed.

(** A message of one or two bytes: indexing raises before anything is
    logged or written, and the handler runs. *)
Lemma process_midi_out_short msg ser w s :
  length msg = 1 \/ length msg = 2 ->
  process_midi_out msg ser w s = (logException IndexError ;; stop) s.
Proof.
  intros [Hlen|Hlen]; destruct msg as [|b0 [|b1 [|b2 ?]]];
    try discriminate Hlen; reflexivity.
Qed.

(** Calling [stop] twice is calling it once. *)
Lemma stop_idempotent s : final stop (final stop s) = final stop s.
Proof.
  destruct s as [p ss i cs cb mi mo sn o sl d oc].
  destruct i as [h|]; cbn; [|done].
  unfold on_conn, set_conns; cbn. f_equal.
  apply alter_idempotent. by intros [].
Qed.

Section BridgeFacts.

Variable py_eval : string -> dotdict -> Outcome bool.
Variable self : Serial2Midi.

#[local] Abbreviation step := (step py_eval self).
#[local] Abbreviation exec := (exec py_eval self).

Lemma exec_app acts acts' s : exec (acts ++ acts') s = exec acts' (exec acts s).
Proof. apply fold_left_app. Qed.

Lemma exec_cons a acts s : exec (a :: acts) s = exec acts (step a s).
Proof. reflexivity. Qed.

Lemma step_Worker h r s :
  step (Worker h r) s = final (worker h process_serial_in r) s.
Proof. reflexivity. Qed.

Lemma step_MidiIn msg w s :
  step (MidiIn msg w) s
  = match callback s with
    | Some ser => final (process_midi_out msg ser w) s
    | None => s
    end.
Proof. reflexivity. Qed.

(** C2. What the reader thread of a live connection forwards: each buffer
    it reads is handled without an exception, is passed on unchanged to
    the virtual output when it has exactly three bytes, and is dropped
    otherwise; over a sequence of reads the messages sent are exactly the
    three-byte buffers, in the order read. *)
Theorem inbound_frames_forwarded h reads s :
  reader_running h s = true ->
  (forall buf t,
      fst (process_serial_in buf t) = Return tt
      /\ sent (final (process_serial_in buf) t)
         = sent t ++ (if decide (length buf = 3) then [buf] else []))
  /\ sent (exec (map (fun data => Worker h (Data data)) reads) s)
     = sent s ++ filter (fun buf => length buf = 3) reads
  /\ reader_running h
       (exec (map (fun data => Worker h (Data data)) reads) s) = true.
Proof.
  intros Hrun. split.
  - intros buf t. destruct (process_serial_in_spec buf t) as (t' & Ht & Hs & _).
    unfold final. rewrite Ht. cbn [fst snd]. split; [done|]. rewrite Hs.
    cbn. by destruct (decide _).
  - revert s Hrun. induction reads as [|d reads IH]; intros s Hrun.
    + cbn. by rewrite app_nil_r.
    + cbn [map]. rewrite !exec_cons.
      destruct (worker_data h d s Hrun) as (s' & Hs' & Hsent & Hconns).
      assert (step (Worker h (Data d)) s = s') as ->.
      { cbn. unfold final. by rewrite Hs'. }
      destruct (IH s') as [IH1 IH2].
      { by rewrite (reader_running_conns _ _ _ Hconns). }
      split; [|done]. rewrite IH1, Hsent, <- app_assoc. f_equal.
      by rewrite <- filter_app.
Qed.

End BridgeFacts.

(** * The invariant of the supervisor

    Establish, preserve, use: [Inv] holds initially and is kept by every
    action, so it holds after every schedule. *)

Lemma control_Inv s s' : control s' = control s -> Inv s -> Inv s'.
Proof.
  unfold control, Inv, fresh, torn_down. intros [= Hpc Hss Hi Hcb Hmi Hmo Hcl Hin].
  by rewrite Hpc, Hss, Hi, Hcb, Hmi, Hmo, Hcl, Hin.
Qed.

Ltac inv_start s :=
  destruct s as [p ss i cs cb mi mo sn o sl d oc];
  unfold Inv, fresh, torn_down; cbn;
  intros (? & ? & ?).
Ltac inv_split :=
  cbn in *; destruct_and?; destruct_or?; destruct_and?; simplify_eq/=;
  repeat match goal with
  | H : _ <$> ?cs = [] |- _ => apply fmap_nil_inv in H as ->
  | H : _ <$> ?cs = [_] |- _ => destruct cs as [|? [|? ?]]; simplify_eq/=
  end.
(** Unfolds a supervisor step and splits on everything it tests. *)
Ltac run_cases :=
  unfold supervise, run, sleep in *;
  cbn -[time_sleep_accepts Qle_bool] in *;
  repeat (case_match; cbn -[time_sleep_accepts Qle_bool] in *);
  simplify_eq/=.

Ltac inv_fin := cbn; first [done | congruence | by auto].
Ltac inv_done :=
  split_and?; try inv_fin;
  try (left; split_and!; inv_fin); try (right; split_and!; inv_fin).

Section Supervisor.

Variable py_eval : string -> dotdict -> Outcome bool.
Variable self : Serial2Midi.

Lemma Inv_stop s : Inv s -> Inv (final stop s).
Proof.
  inv_start s. destruct p; inv_split; inv_done.
Qed.

Lemma process_serial_in_control buf s :
  exists s', process_serial_in buf s = (Return tt, s') /\ control s' = control s.
Proof.
  destruct (decide (length buf = 3)) as [Hlen|Hlen].
  - destruct buf as [|b0 [|b1 [|b2 [|]]]]; try discriminate Hlen.
    eexists. split; [apply process_serial_in_frame|]. by destruct s.
  - exists s. split; [by apply process_serial_in_drop|done].
Qed.

Lemma on_conn_thread_control h t s :
  control (on_conn h (conn_thread t) s) = control s.
Proof.
  destruct s. unfold control, on_conn; cbn.
  by rewrite !fmap_alter_irrelevant by done.
Qed.

Lemma worker_control h r s :
  control (final (worker h process_serial_in r) s) = control s.
Proof.
  unfold final, worker.
  destruct (conns s !! h) as [c|]; [|done].
  destruct (thread c); try done.
  destruct (stop_event c); [apply on_conn_thread_control|].
  destruct r as [[|b data]|e]; cbn -[process_serial_in].
  - done.
  - destruct (process_serial_in_control (b :: data) s) as (s' & -> & Hc). done.
  - destruct (worker_catches e); cbn; rewrite on_conn_thread_control; by destruct s.
Qed.

Lemma process_midi_out_control msg ser w s :
  control (final (process_midi_out msg ser w) s) = control s
  \/ control (final (process_midi_out msg ser w) s) = control (final stop s).
Proof.
  destruct msg as [|b0 [|b1 [|b2 rest]]].
  - by left.
  - right. by destruct s as [p ss [] cs cb mi mo sn o sl d oc].
  - right. by destruct s as [p ss [] cs cb mi mo sn o sl d oc].
  - destruct w as [e|].
    + right. by destruct s as [p ss [] cs cb mi mo sn o sl d oc].
    + left. destruct s. unfold control; cbn.
      by rewrite !fmap_alter_irrelevant by done.
Qed.

Lemma Inv_run w s : Inv s -> Inv (supervise py_eval self w s).
Proof.
  inv_start s. destruct p; inv_split; run_cases; inv_done.
Qed.
Lemma Inv_step a s : Inv s -> Inv (step py_eval self a s).
Proof.
  intros HI. destruct a as [w|h r|msg w|]; cbn.
  - by apply Inv_run.
  - apply (control_Inv s); [apply worker_control|done].
  - destruct (callback s) as [ser|]; [|done].
    destruct (process_midi_out_control msg ser w s) as [H|H].
    + by apply (control_Inv s).
    + apply (control_Inv (final stop s)); [done|]. by apply Inv_stop.
  - by apply Inv_stop.
Qed.

Lemma Inv_init : Inv init.
Proof. by repeat split. Qed.

Lemma Inv_exec acts s : Inv s -> Inv (exec py_eval self acts s).
Proof.
  revert s. induction acts as [|a acts IH]; intros s HI; [done|].
  cbn. by apply IH, Inv_step.
Qed.


Lemma control_Stopping s s' : control s' = control s -> Stopping s -> Stopping s'.
Proof.
  intros Hc (HI & Hss & Hcb & Hw & Hr). pose proof (control_Inv _ _ Hc HI).
  unfold control in Hc. injection Hc as Hpc Hss' Hi Hcb' Hmi Hmo Hcl Hin.
  unfold Stopping. by rewrite Hpc, Hss', Hcb', Hin.
Qed.

Lemma control_rank s s' : control s' = control s -> rank s' = rank s.
Proof. unfold control, rank. by intros [= -> _ _ _ _ _ _ _]. Qed.

Ltac stopping_start s :=
  destruct s as [p ss i cs cb mi mo sn o sl d oc];
  unfold Stopping, Inv, fresh, torn_down, rank; cbn.

Lemma Stopping_stop s : Stopping s -> Stopping (final stop s).
Proof.
  intros HS. pose proof (Inv_stop s (proj1 HS)) as HI. revert HS HI.
  stopping_start s. intros ((_ & _ & H) & ? & ? & Hw & Hr) HI. split; [done|].
  clear HI. destruct p; inv_split; split_and!; done.
Qed.

Lemma rank_stop s : rank (final stop s) = rank s.
Proof. by destruct s as [p ss [] cs cb mi mo sn o sl d oc]. Qed.

Lemma Stopping_run w s :
  time_sleep_accepts (sleep_interval self) = true ->
  Stopping s ->
  Stopping (supervise py_eval self w s)
  /\ rank (supervise py_eval self w s) = pred (rank s).
Proof.
  intros Hacc HS. pose proof (Inv_run w s (proj1 HS)) as HI. revert HS HI.
  stopping_start s. intros ((_ & _ & H) & ? & ? & Hw & Hr) HI.
  destruct p; inv_split; try (specialize (Hw _ eq_refl)); simplify_eq/=;
    try (by destruct (Hr e)); run_cases.
  all: split_and!; inv_done.
Qed.

Lemma Stopping_step a s :
  time_sleep_accepts (sleep_interval self) = true ->
  Stopping s ->
  Stopping (step py_eval self a s)
  /\ rank (step py_eval self a s)
     = match a with Run _ => pred (rank s) | _ => rank s end.
Proof.
  intros Hacc HS. destruct a as [w|h r|msg w|]; cbn.
  - by apply Stopping_run.
  - split; [|apply control_rank, worker_control].
    apply (control_Stopping s); [apply worker_control|done].
  - destruct (callback s) as [ser|]; [|done].
    destruct (process_midi_out_control msg ser w s) as [H|H].
    + split; [by apply (control_Stopping s)|by apply control_rank].
    + split.
      * apply (control_Stopping (final stop s)); [done|by apply Stopping_stop].
      * rewrite (control_rank _ _ H). apply rank_stop.
  - split; [by apply Stopping_stop|apply rank_stop].
Qed.

Lemma Stopping_exec acts s :
  time_sleep_accepts (sleep_interval self) = true ->
  Stopping s ->
  Stopping (exec py_eval self acts s)
  /\ rank (exec py_eval self acts s) = rank s - runs acts.
Proof.
  intros Hacc. revert s. induction acts as [|a acts IH]; intros s HS.
  - cbn. split; [done|lia].
  - destruct (Stopping_step a s Hacc HS) as [HS' Hr].
    destruct (IH _ HS') as [HS'' Hr''].
    change (exec py_eval self (a :: acts) s)
      with (exec py_eval self acts (step py_eval self a s)).
    split; [done|]. rewrite Hr'', Hr. destruct a; cbn; lia.
Qed.

Lemma Stopping_rank s : Stopping s -> rank s <= 4.
Proof.
  stopping_start s. intros ((_ & _ & H) & ? & ? & _ & Hr).
  destruct p; inv_split; try lia. by destruct (Hr e).
Qed.

Lemma Stopping_end s :
  Stopping s -> rank s = 0 ->
  pc s = PStopped /\ midi_in_closes s = 1 /\ midi_out_closes s = 1
  /\ ser_closes <$> conns s = [1].
Proof.
  stopping_start s. intros ((? & ? & H) & ? & ? & _) Hr.
  destruct p; inv_split; try done. split_and!; congruence.
Qed.

(** With a sleep length [time.sleep] takes, [run] never raises. *)
Lemma never_raised acts s e :
  time_sleep_accepts (sleep_interval self) = true ->
  (forall e, pc s <> PRaised e) ->
  pc (exec py_eval self acts s) <> PRaised e.
Proof.
  intros Hacc. revert s. induction acts as [|a acts IH]; intros s Hs; [done|].
  apply IH. intros e'. destruct a as [w|h r|msg w|].
  - destruct s as [p ss i cs cb mi mo sn o sl d oc]; cbn in *.
    destruct p; run_cases; done.
  - cbn. pose proof (worker_control h r s) as Hc.
    apply (f_equal (fun x => x.1.1.1.1.1.1)) in Hc. cbn in Hc.
    rewrite Hc. apply Hs.
  - cbn. destruct (callback s) as [ser|]; [|apply Hs].
    destruct (process_midi_out_control msg ser w s) as [Hc|Hc];
      apply (f_equal (fun x => x.1.1.1.1.1.1)) in Hc; cbn in Hc; rewrite Hc;
      [apply Hs|].
    destruct s as [p ss [] cs cb mi mo sn o sl d oc]; apply Hs.
  - destruct s as [p ss [] cs cb mi mo sn o sl d oc]; apply Hs.
Qed.

(** Once a callback is registered, a stop request makes the bridge stop. *)
Lemma stop_Stopping s ser :
  Inv s -> (forall e, pc s <> PRaised e) -> callback s = Some ser ->
  ser = 0 /\ Stopping (final stop s).
Proof.
  intros HI Hr Hcb. pose proof (Inv_stop s HI) as HI'. revert HI Hr Hcb HI'.
  stopping_start s. intros (_ & _ & H) Hr -> HI'.
  destruct p; inv_split; split_and!; inv_done.
Qed.

Lemma Inv_no_double_close s :
  Inv s ->
  midi_in_closes s <= 1 /\ midi_out_closes s <= 1
  /\ Forall (fun n => n <= 1) (ser_closes <$> conns s).
Proof.
  destruct s as [p ss i cs cb mi mo sn o sl d oc];
  unfold Inv, fresh, torn_down; cbn. intros (? & ? & H).
  destruct p; inv_split; split_and!; try lia; cbn;
    first [apply Forall_nil_2 | apply Forall_singleton; lia].
Qed.
End Supervisor.


(** * Stopping the bridge *)

Lemma logException_eq e s :
  logException e s = (Return tt, set_out (out s ++ [Traceback e]) s).
Proof. by destruct s. Qed.

Section Claims.

Variable py_eval : string -> dotdict -> Outcome bool.
Variable self : Serial2Midi.

#[local] Abbreviation step := (step py_eval self).
#[local] Abbreviation exec := (exec py_eval self).

(** The handler of [process_midi_out], run once a callback is registered:
    the traceback is printed, nothing is written, the flag is set, and,
    unless [run] has raised, the bridge is on its way out. *)
Lemma handler_stops s ser e :
  Inv s -> callback s = Some ser ->
  ser = 0
  /\ Inv (final (logException e ;; stop) s)
  /\ should_stop (final (logException e ;; stop) s) = true
  /\ out (final (logException e ;; stop) s) = out s ++ [Traceback e]
  /\ written <$> conns (final (logException e ;; stop) s)
     = written <$> conns s
  /\ ((forall e', pc s <> PRaised e') ->
      Stopping (final (logException e ;; stop) s)).
Proof.
  intros HI Hcb.
  assert (final (logException e ;; stop) s
          = final stop (set_out (out s ++ [Traceback e]) s)) as ->.
  { unfold final, bind. by rewrite logException_eq. }
  assert (Inv (set_out (out s ++ [Traceback e]) s)) as HI'.
  { apply (control_Inv s); [by destruct s|done]. }
  split_and!.
  - revert HI Hcb. inv_start s. intros ->. destruct p; inv_split; done.
  - by apply Inv_stop.
  - by destruct s as [p ss [] cs cb mi mo sn o sl d oc].
  - by destruct s as [p ss [] cs cb mi mo sn o sl d oc].
  - destruct s as [p ss [] cs cb mi mo sn o sl d oc]; cbn; [|done].
    by rewrite fmap_alter_irrelevant.
  - intros Hr.
    apply (stop_Stopping (set_out (out s ++ [Traceback e]) s) ser HI');
      by destruct s.
Qed.

Lemma Stopping_reaches_Stopped s acts :
  time_sleep_accepts (sleep_interval self) = true ->
  Stopping s -> 4 <= runs acts ->
  pc (exec acts s) = PStopped
  /\ midi_in_closes (exec acts s) = 1 /\ midi_out_closes (exec acts s) = 1
  /\ ser_closes <$> (conns (exec acts s) !! 0) = Some 1.
Proof.
  intros Hacc HS Hruns.
  destruct (Stopping_exec py_eval self acts s Hacc HS) as [HS' Hr].
  pose proof (Stopping_rank s HS).
  destruct (Stopping_end _ HS') as (? & ? & ? & Hc); [lia|].
  split_and!; try done.
  rewrite <- list_lookup_fmap. by rewrite Hc.
Qed.

(** C3. When the write of a message that arrived on the virtual input
    raises, the callback prints the traceback of the error and calls [stop]:
    the flag is set and, the configured sleep interval being a length
    [time.sleep] takes, in every schedule that lets the supervisor move four
    more times [run] returns, with the serial handle and both virtual ports
    closed exactly once; in no schedule is any of them closed twice. *)
Theorem outbound_write_error_stops_bridge acts ser msg e acts' :
  callback (exec acts init) = Some ser ->
  3 <= length msg ->
  (exists line,
      out (step (MidiIn msg (Some e)) (exec acts init))
      = out (exec acts init) ++ [line; Traceback e])
  /\ should_stop (step (MidiIn msg (Some e)) (exec acts init)) = true
  /\ (time_sleep_accepts (sleep_interval self) = true ->
      4 <= runs acts' ->
      pc (exec acts' (step (MidiIn msg (Some e)) (exec acts init))) = PStopped
      /\ midi_in_closes
           (exec acts' (step (MidiIn msg (Some e)) (exec acts init))) = 1
      /\ midi_out_closes
           (exec acts' (step (MidiIn msg (Some e)) (exec acts init))) = 1
      /\ ser_closes <$>
           (conns (exec acts' (step (MidiIn msg (Some e)) (exec acts init)))
              !! ser) = Some 1)
  /\ midi_in_closes
       (exec acts' (step (MidiIn msg (Some e)) (exec acts init))) <= 1
  /\ midi_out_closes
       (exec acts' (step (MidiIn msg (Some e)) (exec acts init))) <= 1
  /\ Forall (fun n => n <= 1)
       (ser_closes <$>
          conns (exec acts' (step (MidiIn msg (Some e)) (exec acts init)))).
Proof.
  intros Hcb Hlen.
  pose proof (Inv_exec py_eval self acts init Inv_init) as HI.
  pose proof (fun Hacc e' =>
                never_raised py_eval self acts init e' Hacc
                  (fun e0 => ltac:(discriminate))) as Hnr.
  set (s := exec acts init) in *.
  destruct msg as [|b0 [|b1 [|b2 rest]]]; cbn in Hlen; try lia.
  set (s0 := set_out (out s ++ [Print INFO [ts; "[MIDI → SER]"%string;
                                            hex b0; hex b1; hex b2]]) s).
  assert (step (MidiIn (b0 :: b1 :: b2 :: rest) (Some e)) s
          = final (logException e ;; stop) s0) as ->.
  { cbn. rewrite Hcb. unfold final. by rewrite process_midi_out_write_raises. }
  assert (Inv s0) as HI0 by (apply (control_Inv s); [by destruct s|done]).
  assert (callback s0 = Some ser) as Hcb0 by (by destruct s).
  destruct (handler_stops s0 ser e HI0 Hcb0)
    as (-> & HI1 & Hss & Hout & _ & HS).
  pose proof (Inv_no_double_close _ (Inv_exec py_eval self acts' _ HI1))
    as (? & ? & ?).
  split_and!; try done.
  - eexists. rewrite Hout. subst s0. destruct s; cbn. by rewrite <- app_assoc.
  - intros Hacc Hruns. apply Stopping_reaches_Stopped; [done| |done].
    apply HS. intros e'. subst s0. specialize (Hnr Hacc e'). by destruct s.
Qed.

(** C10. A message of one or two bytes on the virtual input: indexing the
    second or third byte raises before anything is logged or written, the
    callback's own handler catches the error and calls [stop], and, the
    configured sleep interval being a length [time.sleep] takes, the whole
    bridge stops. *)
Theorem short_message_stops_bridge acts ser msg w acts' :
  callback (exec acts init) = Some ser ->
  length msg = 1 \/ length msg = 2 ->
  process_midi_out msg ser w (exec acts init)
  = (logException IndexError ;; stop) (exec acts init)
  /\ written <$> conns (step (MidiIn msg w) (exec acts init))
     = written <$> conns (exec acts init)
  /\ out (step (MidiIn msg w) (exec acts init))
     = out (exec acts init) ++ [Traceback IndexError]
  /\ should_stop (step (MidiIn msg w) (exec acts init)) = true
  /\ (time_sleep_accepts (sleep_interval self) = true ->
      4 <= runs acts' ->
      pc (exec acts' (step (MidiIn msg w) (exec acts init))) = PStopped).
Proof.
  intros Hcb Hlen.
  pose proof (Inv_exec py_eval self acts init Inv_init) as HI.
  pose proof (fun Hacc e' =>
                never_raised py_eval self acts init e' Hacc
                  (fun e0 => ltac:(discriminate))) as Hnr.
  set (s := exec acts init) in *.
  pose proof (process_midi_out_short msg ser w s Hlen) as Heq.
  assert (step (MidiIn msg w) s
          = final (logException IndexError ;; stop) s) as ->.
  { cbn. rewrite Hcb. unfold final. by rewrite Heq. }
  destruct (handler_stops s ser IndexError HI Hcb)
    as (-> & _ & Hss & Hout & Hw & HS).
  split_and!; try done.
  intros Hacc Hruns. apply Stopping_reaches_Stopped; auto.
Qed.

(** C4, as amended. A message of at least three bytes whose write goes
    through is written whole, in one write, to the handle the callback
    holds; the bridge keeps running. *)
Theorem outbound_writes_whole_message msg ser s :
  callback s = Some ser ->
  3 <= length msg ->
  conns (step (MidiIn msg None) s) = alter (conn_write msg) ser (conns s)
  /\ should_stop (step (MidiIn msg None) s) = should_stop s.
Proof.
  intros Hcb Hlen. destruct msg as [|b0 [|b1 [|b2 rest]]]; cbn in Hlen; try lia.
  rewrite step_MidiIn, Hcb. unfold final.
  rewrite process_midi_out_writes. by destruct s.
Qed.

(** * The supervisor's loops *)

(** What a failed round of the retry loop changes. *)
Lemma failed_opens_exec n e s p :
  time_sleep_accepts (sleep_interval self) = true ->
  pc s = POpenHead p -> should_stop s = false ->
  exec (failed_opens n e) s
  = set_open_calls (open_calls s ++ replicate n p)
      (set_slept (slept s ++ replicate n (sleep_interval self)) s).
Proof.
  intros Hacc. revert s. induction n as [|n IH]; intros s Hpc Hss.
  - destruct s; cbn. by rewrite !app_nil_r.
  - cbn [failed_opens]. change (exec (?a :: ?b :: ?l) s) with (exec l (step b (step a s))).
    rewrite IH.
    + destruct s; cbn in *; subst. unfold supervise, run, sleep.
      cbn -[time_sleep_accepts]. rewrite Hacc. cbn. by rewrite <- !app_assoc.
    + destruct s; cbn in *; subst. unfold supervise, run, sleep.
      cbn -[time_sleep_accepts]. by rewrite Hacc.
    + destruct s; cbn in *; subst. unfold supervise, run, sleep.
      cbn -[time_sleep_accepts]. by rewrite Hacc.
Qed.

(** Only the supervisor moves the supervisor. *)
Lemma process_serial_in_plan buf s :
  plan (final (process_serial_in buf) s) = plan s
  /\ should_stop (final (process_serial_in buf) s) = should_stop s.
Proof.
  destruct (decide (length buf = 3)) as [Hlen|Hlen].
  - destruct buf as [|b0 [|b1 [|b2 [|]]]]; try discriminate Hlen.
    unfold final. rewrite process_serial_in_frame. by destruct s.
  - unfold final. by rewrite process_serial_in_drop.
Qed.

Lemma other_plan a s :
  (forall w, a <> Run w) ->
  plan (step a s) = plan s
  /\ (should_stop s = true -> should_stop (step a s) = true).
Proof.
  intros Ha. destruct a as [w|h r|msg w|]; [by destruct (Ha w)| | |].
  - rewrite step_Worker. unfold final, worker.
    destruct (conns s !! h) as [c|]; [|done].
    destruct (thread c); try done.
    destruct (stop_event c); [by destruct s|].
    destruct r as [[|b data]|e]; cbn -[process_serial_in].
    + done.
    + destruct (process_serial_in_plan (b :: data) s) as [Hp Hs].
      unfold final in *. destruct (process_serial_in (b :: data) s) as [[] s'];
        cbn in *; [by rewrite Hs|].
      destruct (worker_catches e); cbn; destruct s'; cbn in *; by rewrite <- ?Hs.
    + destruct (worker_catches e); by destruct s.
  - rewrite step_MidiIn. destruct (callback s) as [ser|]; [|done].
    destruct msg as [|b0 [|b1 [|b2 rest]]]; [done| | |].
    + by destruct s as [p ss [] cs cb mi mo sn o sl d oc].
    + by destruct s as [p ss [] cs cb mi mo sn o sl d oc].
    + destruct w; by destruct s as [p ss [] cs cb mi mo sn o sl d oc].
  - by destruct s as [p ss [] cs cb mi mo sn o sl d oc].
Qed.

Lemma other_pc a s : (forall w, a <> Run w) -> pc (step a s) = pc s.
Proof.
  intros Ha. destruct (other_plan a s Ha) as [Hp _].
  exact (f_equal (fun x => x.1.1.1) Hp).
Qed.

Lemma other_discoveries a s :
  (forall w, a <> Run w) -> discoveries (step a s) = discoveries s.
Proof.
  intros Ha. destruct (other_plan a s Ha) as [Hp _].
  exact (f_equal (fun x => x.1.2) Hp).
Qed.

Lemma other_open_calls a s :
  (forall w, a <> Run w) -> open_calls (step a s) = open_calls s.
Proof.
  intros Ha. destruct (other_plan a s Ha) as [Hp _].
  exact (f_equal (fun x => x.2) Hp).
Qed.

Lemma other_slept a s : (forall w, a <> Run w) -> slept (step a s) = slept s.
Proof.
  intros Ha. destruct (other_plan a s Ha) as [Hp _].
  exact (f_equal (fun x => x.1.1.2) Hp).
Qed.

Lemma should_stop_step a s :
  should_stop s = true -> should_stop (step a s) = true.
Proof.
  intros Hss. destruct a as [w| | |];
    try (apply other_plan; [intros ?; discriminate|done]).
  destruct s as [p ss i cs cb mi mo sn o sl d oc]; cbn in *; subst.
  destruct p; run_cases; done.
Qed.

(** Once a stop is requested, a step either does not sleep or spends the
    one sleep that is left. *)
Lemma slept_step a s :
  should_stop s = true ->
  (slept (step a s) = slept s /\ sleeps_left (step a s) <= sleeps_left s)
  \/ (slept (step a s) = slept s ++ [sleep_interval self]
      /\ sleeps_left s = 1 /\ sleeps_left (step a s) = 0).
Proof.
  intros Hss. destruct a as [w|h r|msg w|].
  - destruct s as [p ss i cs cb mi mo sn o sl d oc]; cbn in Hss; subst.
    cbn [step]. destruct p; run_cases; auto.
  - left. unfold sleeps_left. by rewrite other_slept, other_pc.
  - left. unfold sleeps_left. by rewrite other_slept, other_pc.
  - left. unfold sleeps_left. by rewrite other_slept, other_pc.
Qed.

(** After a stop request at most [sleeps_left] more sleeps are performed,
    each of the configured interval. *)
Lemma slept_after_stop acts s :
  should_stop s = true ->
  slept (exec acts s) = slept s
  \/ (sleeps_left s = 1
      /\ slept (exec acts s) = slept s ++ [sleep_interval self]).
Proof.
  revert s. induction acts as [|a acts IH]; intros s Hss; [by left|].
  change (exec (a :: acts) s) with (exec acts (step a s)).
  destruct (IH (step a s) (should_stop_step a s Hss)) as [IH1|[IH1 IH2]];
    destruct (slept_step a s Hss) as [[H1 H2]|(H1 & H2 & H3)].
  - left. congruence.
  - right. split; [done|congruence].
  - right. split; [|congruence].
    assert (sleeps_left s <= 1) by (unfold sleeps_left; case_match; lia). lia.
  - lia.
Qed.


Lemma run_blocked w s h c :
  pc s = PWait h -> conns s !! h = Some c -> interrupt c = false ->
  step (Run w) s = s.
Proof.
  intros Hpc Hc Hi. destruct s; cbn in *; subst.
  unfold supervise, run; cbn. by rewrite Hc, Hi.
Qed.

Lemma blocked_forever ws s h c :
  pc s = PWait h -> conns s !! h = Some c -> interrupt c = false ->
  exec (map Run ws) s = s.
Proof.
  intros Hpc Hc Hi. induction ws as [|w ws IH]; [done|].
  cbn [map]. change (exec (?a :: ?l) s) with (exec l (step a s)).
  by rewrite (run_blocked w s h c).
Qed.

(** C6, as amended. From the head of the retry loop, with an interval that
    [time.sleep] accepts: while no stop is requested, [n] failed opens are
    [n] attempts each followed by one sleep of the configured interval, and
    the loop is back at its head.  With the flag set at the head, the next
    step leaves the loop without sleeping, and no schedule sleeps again.  A
    stop that arrives after the flag was checked does not end the attempt
    underway: if that attempt fails, the whole interval is slept before the
    flag is looked at again; in every schedule at most this one sleep
    follows the stop request. *)
Theorem open_serial_retries_until_stop p s n e acts :
  pc s = POpenHead p ->
  (time_sleep_accepts (sleep_interval self) = true -> should_stop s = false ->
     exec (failed_opens n e) s
     = set_open_calls (open_calls s ++ replicate n p)
         (set_slept (slept s ++ replicate n (sleep_interval self)) s))
  /\ (should_stop s = true ->
        (forall w, step (Run w) s = set_pc PLoopHead s)
        /\ slept (exec acts s) = slept s)
  /\ (should_stop s = false ->
        forall w,
          let s' := step Signal (step (Run w) s) in
          should_stop s' = true /\ pc s' = POpenCall p /\ slept s' = slept s
          /\ (forall w' e',
                time_sleep_accepts (sleep_interval self) = true ->
                open_error w' = Some e' ->
                slept (step (Run w') s') = slept s ++ [sleep_interval self]
                /\ pc (step (Run w') s') = POpenHead p
                /\ step (Run w') (step (Run w') s')
                   = set_pc PLoopHead (step (Run w') s'))
          /\ (slept (exec acts s') = slept s
              \/ slept (exec acts s') = slept s ++ [sleep_interval self])).
Proof.
  intros Hpc. split_and!.
  - intros Hacc Hss. by apply failed_opens_exec.
  - intros Hss. split.
    + intros w. destruct s; cbn in *; by subst.
    + destruct (slept_after_stop acts s Hss) as [H|[H _]]; [done|].
      unfold sleeps_left in H. by rewrite Hpc in H.
  - intros Hss w s'.
    assert (should_stop s' = true /\ pc s' = POpenCall p /\ slept s' = slept s)
      as (Hss' & Hpc' & Hsl').
    { subst s'. by destruct s as [? ? [] ? ? ? ? ? ? ? ? ?]; cbn in *; subst. }
    split_and!; try done.
    + intros w' e' Hacc He'.
      destruct s' as [p' ss' i' cs' cb' mi' mo' sn' o' sl' d' oc'];
        cbn in Hss', Hpc', Hsl'; subst.
      cbn [step]. unfold supervise, run, sleep. cbn -[time_sleep_accepts].
      rewrite He'. cbn -[time_sleep_accepts]. rewrite Hacc. by cbn.
    + destruct (slept_after_stop acts s' Hss') as [H|[_ H]];
        rewrite Hsl' in H; auto.
Qed.


Lemma manual_ok_step a s :
  truthy (manual_device self) = true -> manual_ok self s -> manual_ok self (step a s).
Proof.
  intros Hm (Hd & Ho & Hp). destruct a as [w| | |].
  - destruct s as [pc0 ss i cs cb mi mo sn o sl d oc]; cbn in Hd, Ho, Hp; subst.
    cbn [step].
    destruct pc0; unfold supervise, run, sleep;
      cbn -[time_sleep_accepts Qle_bool manual_ok]; rewrite ?Hm;
      repeat (case_match; cbn -[time_sleep_accepts Qle_bool manual_ok] in *);
      simplify_eq/=; unfold manual_ok; cbn; split_and?; try done.
    all: by apply Forall_app_2; [|apply Forall_singleton].
  - unfold manual_ok.
    by rewrite other_pc, other_discoveries, other_open_calls.
  - unfold manual_ok.
    by rewrite other_pc, other_discoveries, other_open_calls.
  - unfold manual_ok.
    by rewrite other_pc, other_discoveries, other_open_calls.
Qed.

(** C8. With a manual device configured, no schedule ever runs discovery,
    and every open is an open of that device. *)
Theorem manual_device_bypasses_discovery acts :
  truthy (manual_device self) = true ->
  discoveries (exec acts init) = 0
  /\ Forall (fun q => q = default ""%string (manual_device self))
       (open_calls (exec acts init)).
Proof.
  intros Hm. enough (manual_ok self (exec acts init)) as (? & ? & _) by done.
  assert (manual_ok self init) as H0 by (by repeat split).
  revert H0. generalize init. induction acts as [|a acts IH]; intros s Hs; [done|].
  apply IH. by apply manual_ok_step.
Qed.

(** Once [run] has returned nothing makes it run again. *)
Lemma Stopped_is_final a s : pc s = PStopped -> pc (step a s) = PStopped.
Proof.
  intros Hpc. destruct a as [w| | |]; try (by rewrite other_pc).
  destruct s; cbn in *; by subst.
Qed.

(** C1, what the code does. When the read of a running reader raises while
    the supervisor waits, the reader's loop ends, but the event the supervisor
    waits on is left unset: however often the supervisor is scheduled it
    stays in its wait, and the connection is not torn down. *)
Theorem reader_error_not_signalled h c e ws s :
  pc s = PWait h -> conns s !! h = Some c ->
  thread c = Running -> stop_event c = false -> interrupt c = false ->
  thread <$> (conns (step (Worker h (ReadRaises e)) s) !! h) = Some Exited
  /\ interrupt <$> (conns (step (Worker h (ReadRaises e)) s) !! h) = Some false
  /\ pc (step (Worker h (ReadRaises e)) s) = PWait h
  /\ exec (map Run ws) (step (Worker h (ReadRaises e)) s)
     = step (Worker h (ReadRaises e)) s.
Proof.
  intros Hpc Hc Ht Hse Hi.
  assert (conns (step (Worker h (ReadRaises e)) s) !! h
          = Some (conn_thread Exited c)) as Hc'.
  { rewrite step_Worker. unfold final, worker. rewrite Hc, Ht, Hse. cbn.
    destruct (worker_catches e), s; cbn in *;
      by rewrite list_lookup_alter_eq, Hc. }
  assert (pc (step (Worker h (ReadRaises e)) s) = PWait h) as Hpc'
    by (by rewrite other_pc).
  rewrite Hc'. split_and!; try done.
  - cbn. by rewrite Hi.
  - by apply (blocked_forever ws _ h (conn_thread Exited c)).
Qed.

(** C5, what the code does. A stop requested after [open_serial] has
    checked the flag and before the open returns sets the flag but wakes
    nobody: the open succeeds, the supervisor sets the connection up and then
    waits on an event that is not set, however often it is scheduled. *)
Theorem stop_during_open_is_lost acts p w ws :
  pc (exec acts init) = POpenCall p ->
  should_stop (exec acts init) = false ->
  open_error w = None ->
  should_stop (exec (acts ++ [Signal; Run w; Run w]) init) = true
  /\ pc (exec (acts ++ [Signal; Run w; Run w]) init) = PWait 0
  /\ exec (map Run ws) (exec (acts ++ [Signal; Run w; Run w]) init)
     = exec (acts ++ [Signal; Run w; Run w]) init.
Proof.
  intros Hpc Hss Hw. rewrite exec_app.
  pose proof (Inv_exec py_eval self acts init Inv_init) as (_ & _ & HI).
  rewrite Hpc in HI. destruct HI as (Hcs%fmap_nil_inv & Hcb & Hi).
  destruct (exec acts init) as [pc0 ss i cs cb mi mo sn o sl d oc],
    w as [ports oe]; cbn in *; subst.
  split_and!; try done.
  eapply blocked_forever; done.
Qed.
End Claims.

(** * More of the program: discovery and the listing mode *)

Section DiscoveryMore.

Variable py_eval : string -> dotdict -> Outcome bool.

Lemma findDevices_matching eval_match ports :
  findDevices py_eval eval_match ports
  = inspect <$> filter (fun p => matching py_eval eval_match p = true) ports.
Proof.
  induction ports as [|p ports IH]; [done|].
  cbn [findDevices]. rewrite filter_cons, IH.
  destruct (decide (matching py_eval eval_match p = true)) as [Hm|Hm];
    unfold matching in Hm; destruct (truthy eval_match); try done;
    by destruct (py_eval _ (inspect p)) as [[]|].
Qed.

(** Completion reorders the tasks and neither drops nor repeats one. *)
Lemma as_completed_perm {A} (tasks : list A) order :
  as_completed tasks order ≡ₚ tasks.
Proof.
  revert order. induction tasks as [|x tasks IH]; intros order; [done|].
  cbn [as_completed]. rewrite <- Permutation_middle, take_drop.
  by rewrite IH.
Qed.

(** Every order of the tasks is the completion order for some [order]. *)
Lemma as_completed_any_order {A} (tasks l : list A) :
  l ≡ₚ tasks -> exists order, as_completed tasks order = l.
Proof.
  revert l. induction tasks as [|x tasks IH]; intros l Hl.
  - apply Permutation_nil_r in Hl as ->. by exists [].
  - assert (x ∈ l) as Hx by (rewrite Hl; left).
    apply list_elem_of_split in Hx as (l1 & l2 & ->).
    rewrite <- Permutation_middle in Hl. apply (inj (cons x)) in Hl.
    destruct (IH _ Hl) as [order Ho].
    exists (length l1 :: order). cbn [as_completed hd tail]. rewrite Ho.
    rewrite Nat.mod_small by (rewrite length_app; lia).
    by rewrite take_app_length, drop_app_length.
Qed.

(** X1. [findDevices] is a filter: it yields, in the order in which the
    inspections complete, the descriptors of exactly the ports that pass
    [matching] (no predicate, or a predicate whose value is true).  Whatever
    that order, it yields the matching ports among those enumerated, each as
    often as it is enumerated, and never more than what is attached. *)
Theorem findDevices_filter eval_match ports order :
  findDevices py_eval eval_match (as_completed ports order)
  = inspect <$> filter (fun p => matching py_eval eval_match p = true)
                  (as_completed ports order)
  /\ findDevices py_eval eval_match (as_completed ports order)
     ≡ₚ inspect <$> filter (fun p => matching py_eval eval_match p = true) ports
  /\ length (findDevices py_eval eval_match (as_completed ports order))
     <= length ports.
Proof.
  rewrite findDevices_matching. split_and!; [done| |].
  - by rewrite as_completed_perm.
  - rewrite length_fmap, as_completed_perm. apply length_filter.
Qed.

(** X2. With no predicate, or with the empty string as predicate, nothing
    is evaluated and every attached port is yielded, in the order in which
    the inspections complete. *)
Theorem findDevices_without_predicate eval_match ports order :
  truthy eval_match = false ->
  findDevices py_eval eval_match (as_completed ports order)
  = inspect <$> as_completed ports order
  /\ findDevices py_eval eval_match (as_completed ports order)
     ≡ₚ inspect <$> ports.
Proof.
  intros Ht.
  assert (forall l, findDevices py_eval eval_match l = inspect <$> l) as H.
  { intros l. induction l as [|p l IH]; [done|].
    cbn [findDevices]. by rewrite Ht, IH. }
  rewrite H. split; [done|]. by rewrite as_completed_perm.
Qed.

Lemma items_inspect p :
  items (inspect p)
  = [("device_path"%string, PyStr (device p));
     ("usb_description"%string, py_str (product p));
     ("usb_vid"%string, py_int (vid p));
     ("usb_pid"%string, py_int (pid p));
     ("usb_manufacturer"%string, py_str (manufacturer p))].
Proof.
  unfold items, inspect, descriptor_keys. cbn [omap list_omap].
  repeat (rewrite ?lookup_insert_eq; rewrite ?lookup_insert_ne by done).
  done.
Qed.

(** X4. [listDevices] prints, for each port that passes the filter, in the
    order in which the inspections complete, five [key: value] lines in the
    order the descriptor was built, with [None] for what the port lacks, and
    then an empty line: six lines per matching port, and nothing when none
    matches. *)
Theorem listDevices_prints eval_match ports order :
  listDevices py_eval eval_match ports order
  = flat_map listing
      (filter (fun p => matching py_eval eval_match p = true)
         (as_completed ports order))
  /\ length (listDevices py_eval eval_match ports order)
     = 6 * length (filter (fun p => matching py_eval eval_match p = true) ports).
Proof.
  unfold listDevices. rewrite findDevices_matching.
  assert (length (filter (fun p => matching py_eval eval_match p = true) ports)
          = length (filter (fun p => matching py_eval eval_match p = true)
                      (as_completed ports order))) as ->
    by (apply Permutation_length; by rewrite as_completed_perm).
  generalize (filter (fun p => matching py_eval eval_match p = true)
                (as_completed ports order)).
  intros l. induction l as [|p l [IH1 IH2]]; [done|].
  cbn [fmap list_fmap flat_map]. rewrite items_inspect. split.
  - rewrite IH1. done.
  - rewrite length_app, IH2. cbn. lia.
Qed.
End DiscoveryMore.

(** X3. The descriptor [inspect] builds has exactly the five keys, and
    reading them as attributes gives the port's path and its USB data, with
    [None] where the port has none. *)
Theorem inspect_fields p :
  dotdict_getattr (inspect p) "device_path" = PyStr (device p)
  /\ dotdict_getattr (inspect p) "usb_description" = py_str (product p)
  /\ dotdict_getattr (inspect p) "usb_vid" = py_int (vid p)
  /\ dotdict_getattr (inspect p) "usb_pid" = py_int (pid p)
  /\ dotdict_getattr (inspect p) "usb_manufacturer" = py_str (manufacturer p)
  /\ dom (inspect p) = list_to_set descriptor_keys.
Proof.
  unfold dotdict_getattr, inspect.
  split_and!;
    repeat (rewrite ?lookup_insert_eq; rewrite ?lookup_insert_ne by done);
    done.
Qed.

(** X5. The bytes of a logged frame can be read back from the line:
    parsing [hex b] gives [b]. *)
Theorem hex_decodes b :
  HexString.to_N (hex b) = Byte.to_N b
  /\ Byte.of_N (HexString.to_N (hex b)) = Some b.
Proof.
  unfold hex. rewrite HexString.to_N_of_N. split; [done|].
  apply Byte.of_to_N.
Qed.

(** * More of the program: the callbacks and the logger *)

(** X15. The outbound callback never lets an exception escape to the MIDI
    library that calls it, whatever the message and whatever the write does;
    an empty message is ignored. *)
Theorem outbound_callback_never_raises msg ser w s :
  fst (process_midi_out msg ser w s) = Return tt
  /\ process_midi_out [] ser w s = (Return tt, s).
Proof.
  split; [|done].
  destruct msg as [|b0 [|b1 [|b2 rest]]]; try done.
  - by destruct s as [p ss [] cs cb mi mo sn o sl d oc].
  - by destruct s as [p ss [] cs cb mi mo sn o sl d oc].
  - destruct w; [|done]. by destruct s as [p ss [] cs cb mi mo sn o sl d oc].
Qed.

Lemma logger_INFO a o : logger INFO a o = o ++ [Print INFO a].
Proof. reflexivity. Qed.

Lemma logger_info_or_traceback level a o :
  Forall info_or_traceback o -> Forall info_or_traceback (logger level a o).
Proof.
  intros Ho. unfold logger. case_bool_decide as Hl; [|done].
  apply Forall_app. split; [done|]. apply Forall_singleton.
  by apply list_elem_of_singleton in Hl.
Qed.

Ltac out_ok :=
  repeat first
    [ assumption
    | apply logger_info_or_traceback
    | apply Forall_app; split
    | apply Forall_singleton; done ].

Lemma alter_last (f : Conn -> Conn) (cs : list Conn) c :
  alter f (length cs) (cs ++ [c]) = cs ++ [f c].
Proof.
  induction cs as [|c' cs IH]; [done|]. cbn. f_equal. apply IH.
Qed.

Lemma all_written_alter (g : Conn -> Conn) h s :
  (forall c, written (g c) = written c) ->
  all_written (on_conn h g s) = all_written s.
Proof.
  intros Hg. destruct s; unfold all_written; cbn.
  by rewrite fmap_alter_irrelevant.
Qed.

Section More.

Variable py_eval : string -> dotdict -> Outcome bool.
Variable self : Serial2Midi.

#[local] Abbreviation step := (step py_eval self).
#[local] Abbreviation exec := (exec py_eval self).

(** X6. In every run at most one serial handle is ever opened: the wait on
    a connection is left only after a stop, so no second connection is made. *)
Theorem at_most_one_connection acts :
  length (conns (exec acts init)) <= 1.
Proof.
  pose proof (Inv_exec py_eval self acts init Inv_init) as (_ & _ & H).
  rewrite <- (length_fmap ser_closes).
  unfold fresh, torn_down in H.
  destruct (pc (exec acts init)); destruct_and?; destruct_or?; destruct_and?;
    match goal with Hc : ser_closes <$> _ = _ |- _ => rewrite Hc end; cbn; lia.
Qed.

(** X7. In every run the two virtual ports are closed together and at most
    once, and no serial handle is closed twice. *)
Theorem never_closed_twice acts :
  midi_in_closes (exec acts init) <= 1
  /\ midi_out_closes (exec acts init) = midi_in_closes (exec acts init)
  /\ Forall (fun n => n <= 1) (ser_closes <$> conns (exec acts init)).
Proof.
  pose proof (Inv_exec py_eval self acts init Inv_init) as HI.
  destruct (Inv_no_double_close _ HI) as (? & ? & ?).
  destruct HI as (? & _). split_and!; [done|congruence|done].
Qed.


Lemma should_stop_exec acts s :
  should_stop s = true -> should_stop (exec acts s) = true.
Proof.
  revert s. induction acts as [|a acts IH]; intros s Hs; [done|].
  apply IH. by apply should_stop_step.
Qed.

(** X9. A stop request is never withdrawn: once [should_stop] is set,
    nothing that happens afterwards clears it. *)
Theorem stop_request_is_never_withdrawn acts acts' :
  should_stop (exec acts init) = true ->
  should_stop (exec (acts ++ acts') init) = true.
Proof. intros H. rewrite exec_app. by apply should_stop_exec. Qed.

(** X10. Once [run] has returned, the supervisor does nothing more, whatever
    else still happens. *)
Theorem stopped_is_terminal acts s :
  pc s = PStopped ->
  pc (exec acts s) = PStopped /\ (forall w, step (Run w) s = s).
Proof.
  intros Hpc. split.
  - revert s Hpc. induction acts as [|a acts IH]; intros s Hpc; [done|].
    apply IH. by apply Stopped_is_final.
  - intros w. destruct s; cbn in *; by subst.
Qed.

(** X11. Two stop requests in a row leave the same state as one. *)
Theorem stop_twice_is_stop_once s :
  step Signal (step Signal s) = step Signal s.
Proof. apply stop_idempotent. Qed.

Lemma control_should_stop s s' :
  control s' = control s -> should_stop s' = should_stop s.
Proof. unfold control. by intros [= _ -> _ _ _ _ _ _]. Qed.

Lemma quiet_step a s :
  quiet a = true -> should_stop s = false ->
  should_stop (step a s) = false.
Proof.
  intros Hq Hs. destruct a as [w|h r|msg e|]; [| | |done].
  - destruct s as [p ss i cs cb mi mo sn o sl d oc]; cbn in Hs; subst.
    cbn [step]. destruct p; run_cases; done.
  - rewrite step_Worker, (control_should_stop s) by apply worker_control.
    done.
  - rewrite step_MidiIn. destruct (callback s) as [ser|]; [|done].
    destruct msg as [|b0 [|b1 [|b2 rest]]]; try done.
    destruct e; [done|]. unfold final. rewrite process_midi_out_writes.
    by destruct s.
Qed.

(** X12. As long as nobody asks for a stop (no signal, no outbound message
    that is too short or whose write raises), the bridge keeps running:
    whatever the opens, the discovery and the reader do, [should_stop] stays
    clear and the virtual ports stay open. *)
Theorem quiet_schedule_never_exits acts :
  Forall (fun a => quiet a = true) acts ->
  should_stop (exec acts init) = false
  /\ pc (exec acts init) <> PExit /\ pc (exec acts init) <> PStopped
  /\ midi_in_closes (exec acts init) = 0.
Proof.
  intros Hq.
  assert (should_stop (exec acts init) = false) as Hs.
  { assert (should_stop init = false) as H0 by done. revert H0.
    generalize init. induction Hq as [|a acts Ha _ IH]; intros s Hs; [done|].
    apply IH. by apply quiet_step. }
  pose proof (Inv_exec py_eval self acts init Inv_init) as (_ & Hm & H).
  split_and!; try done.
  - intros Hpc. rewrite Hpc in H. destruct H. congruence.
  - intros Hpc. rewrite Hpc in H. destruct H. congruence.
  - rewrite Hm. destruct (pc (exec acts init)); try done.
    destruct H. congruence.
Qed.

(** X13. With no manual device, no port that matches and an interval that
    [time.sleep] accepts, each pass of the supervisor runs discovery once,
    prints that no device was found, sleeps the configured interval and
    starts over; nothing else changes. *)
Theorem idle_discovery_retries ws s :
  time_sleep_accepts (sleep_interval self) = true ->
  truthy (manual_device self) = false ->
  pc s = PLoopHead -> should_stop s = false ->
  Forall (fun w => findDevices py_eval (eval_match self)
                     (as_completed (comports w) (order w)) = []) ws ->
  exec (map Run ws) s
  = set_out (out s ++ replicate (length ws)
                        (Print INFO ["No serial devices found"%string]))
      (set_slept (slept s ++ replicate (length ws) (sleep_interval self))
         (set_discoveries (discoveries s + length ws) s)).
Proof.
  intros Hacc Hm Hpc Hss Hws. revert s Hpc Hss.
  induction Hws as [|w ws Hw _ IH]; intros s Hpc Hss.
  - destruct s; cbn. by rewrite !app_nil_r, Nat.add_0_r.
  - cbn [map]. rewrite exec_cons, IH.
    + destruct s as [p ss i cs cb mi mo sn o sl d oc]; cbn in *; subst.
      unfold supervise, run, sleep; cbn -[logger time_sleep_accepts].
      rewrite Hm, Hw. cbn -[logger time_sleep_accepts]. rewrite Hacc.
      cbn -[logger].
      rewrite !logger_INFO, <- !app_assoc. cbn. by rewrite Nat.add_succ_r.
    + destruct s; cbn in *; subst.
      unfold supervise, run, sleep; cbn -[time_sleep_accepts].
      rewrite Hm, Hw. cbn -[time_sleep_accepts]. by rewrite Hacc.
    + destruct s; cbn in *; subst.
      unfold supervise, run, sleep; cbn -[time_sleep_accepts].
      rewrite Hm, Hw. cbn -[time_sleep_accepts]. by rewrite Hacc.
Qed.

(** X14. First match wins: with no manual device, the supervisor picks the
    first port, in the order in which the inspections complete, that passes
    the filter, and that is the path it opens.  Among several matching ports
    it is that order which decides, not the order of enumeration. *)
Theorem first_match_wins pre p post w w1 s :
  truthy (manual_device self) = false ->
  pc s = PLoopHead -> should_stop s = false ->
  as_completed (comports w) (order w) = pre ++ p :: post ->
  Forall (fun q => matching py_eval (eval_match self) q = false) pre ->
  matching py_eval (eval_match self) p = true ->
  pc (step (Run w) s) = POpenHead (device p)
  /\ open_calls (exec [Run w; Run w1; Run w1] s) = open_calls s ++ [device p].
Proof.
  intros Hm Hpc Hss Hports Hpre Hp.
  assert (exists ds, findDevices py_eval (eval_match self)
                       (as_completed (comports w) (order w))
                     = inspect p :: ds) as [ds Hds].
  { rewrite Hports, findDevices_app.
    assert (findDevices py_eval (eval_match self) pre = []) as ->.
    { clear -Hpre. induction Hpre as [|q pre Hq _ IH]; [done|].
      cbn [findDevices]. unfold matching in Hq.
      destruct (truthy (eval_match self)); [|done].
      by destruct (py_eval _ (inspect q)) as [[]|]. }
    cbn [findDevices app]. unfold matching in Hp.
    destruct (truthy (eval_match self)); [|by eexists].
    destruct (py_eval _ (inspect p)) as [[]|]; try done. by eexists. }
  destruct s as [p0 ss i cs cb mi mo sn o sl d oc]; cbn in Hpc, Hss; subst.
  cbn [exec fold_left step].
  assert (supervise py_eval self w
            {| pc := PLoopHead; should_stop := false; _interrupt := i;
               conns := cs; callback := cb; midi_in_closes := mi;
               midi_out_closes := mo; sent := sn; out := o; slept := sl;
               discoveries := d; open_calls := oc |}
          = {| pc := POpenHead (device p); should_stop := false;
               _interrupt := i; conns := cs; callback := cb;
               midi_in_closes := mi; midi_out_closes := mo; sent := sn;
               out := o ++ [Print INFO ["Using serial device: " +:+ device p]];
               slept := sl; discoveries := S d; open_calls := oc |}) as ->.
  { unfold supervise, run; cbn. rewrite Hm, Hds. by cbn. }
  split; [done|]. run_cases; done.
Qed.

(** X16. Whatever a reader thread reads or raises, it leaves the
    supervisor's place, the stop flag, the interrupt events, the callback
    registration and the close counts as they were. *)
Theorem reader_leaves_control h r s :
  pc (step (Worker h r) s) = pc s
  /\ should_stop (step (Worker h r) s) = should_stop s
  /\ _interrupt (step (Worker h r) s) = _interrupt s
  /\ callback (step (Worker h r) s) = callback s
  /\ interrupt <$> conns (step (Worker h r) s) = interrupt <$> conns s
  /\ ser_closes <$> conns (step (Worker h r) s) = ser_closes <$> conns s.
Proof.
  pose proof (worker_control h r s) as H.
  rewrite <- (step_Worker py_eval self) in H.
  generalize dependent (step (Worker h r) s). intros s'.
  unfold control. by intros [= -> -> -> -> _ _ -> ->].
Qed.


Lemma info_or_traceback_step a s :
  Forall info_or_traceback (out s) -> Forall info_or_traceback (out (step a s)).
Proof.
  intros Ho. destruct a as [w|h r|msg e|].
  - destruct s as [p ss i cs cb mi mo sn o sl d oc]; cbn in Ho.
    cbn [step].
    destruct p; unfold supervise, run, sleep;
      cbn -[logger time_sleep_accepts Qle_bool];
      repeat (case_match; cbn -[logger time_sleep_accepts Qle_bool]);
      out_ok.
  - rewrite step_Worker. unfold final, worker.
    destruct (conns s !! h) as [c|]; [|done].
    destruct (thread c); try done.
    destruct (stop_event c); [by destruct s|].
    destruct r as [[|b data]|e]; cbn -[process_serial_in].
    + done.
    + destruct (decide (length (b :: data) = 3)) as [Hlen|Hlen].
      * destruct data as [|b1 [|b2 [|]]]; try discriminate Hlen.
        rewrite process_serial_in_frame. destruct s; cbn in *. out_ok.
      * by rewrite process_serial_in_drop.
    + destruct (worker_catches e); destruct s; cbn in *; out_ok.
  - rewrite step_MidiIn. destruct (callback s) as [ser|]; [|done].
    destruct msg as [|b0 [|b1 [|b2 rest]]]; [done| | |].
    + destruct s as [p ss [] cs cb mi mo sn o sl d oc]; cbn -[logger] in *;
        out_ok.
    + destruct s as [p ss [] cs cb mi mo sn o sl d oc]; cbn -[logger] in *;
        out_ok.
    + destruct e; destruct s as [p ss [] cs cb mi mo sn o sl d oc];
        cbn -[logger] in *; out_ok.
  - by destruct s as [p ss [] cs cb mi mo sn o sl d oc].
Qed.

(** X18. Under [LOG_LEVELS], all a run ever prints are [INFO] lines and
    tracebacks: no warn, error, debug or verbose line appears. *)
Theorem only_info_lines_and_tracebacks acts :
  Forall info_or_traceback (out (exec acts init)).
Proof.
  assert (Forall info_or_traceback (out init)) as H0 by constructor.
  revert H0. generalize init.
  induction acts as [|a acts IH]; intros s Hs; [done|].
  apply IH. by apply info_or_traceback_step.
Qed.

Lemma directions_aux a s :
  ((forall h r, a <> Worker h r) -> sent (step a s) = sent s)
  /\ ((forall msg w, a <> MidiIn msg w) ->
      all_written (step a s) = all_written s).
Proof.
  split; intros Ha; destruct a as [w|h r|msg e|].
  - destruct s as [p ss i cs cb mi mo sn o sl d oc]; cbn [step].
    destruct p; run_cases; done.
  - by destruct (Ha h r).
  - rewrite step_MidiIn. destruct (callback s) as [ser|]; [|done].
    destruct msg as [|b0 [|b1 [|b2 rest]]]; [done| | |].
    + by destruct s as [p ss [] cs cb mi mo sn o sl d oc].
    + by destruct s as [p ss [] cs cb mi mo sn o sl d oc].
    + destruct e; by destruct s as [p ss [] cs cb mi mo sn o sl d oc].
  - by destruct s as [p ss [] cs cb mi mo sn o sl d oc].
  - destruct s as [p ss i cs cb mi mo sn o sl d oc]; cbn [step].
    destruct p; unfold supervise, run, sleep;
      cbn -[time_sleep_accepts Qle_bool all_written];
      repeat (case_match; cbn -[time_sleep_accepts Qle_bool all_written]);
      unfold all_written; cbn;
      rewrite ?fmap_app, ?concat_app, ?fmap_alter_irrelevant by done;
      cbn; rewrite ?app_nil_r; done.
  - rewrite step_Worker. unfold final, worker.
    destruct (conns s !! h) as [c|]; [|done].
    destruct (thread c); try done.
    destruct (stop_event c); [by apply all_written_alter|].
    destruct r as [[|b data]|e]; cbn -[process_serial_in].
    + done.
    + destruct (process_serial_in_spec (b :: data) s) as (s' & -> & _ & Hc).
      unfold all_written. cbn. by rewrite Hc.
    + destruct (worker_catches e); cbn -[on_conn all_written];
        rewrite all_written_alter by done; by destruct s.
  - by destruct (Ha msg e).
  - destruct s as [p ss [h|] cs cb mi mo sn o sl d oc]; unfold all_written; cbn;
      by rewrite ?fmap_alter_irrelevant.
Qed.

(** X19. The two directions do not mix: only a reader thread sends on the
    virtual output, and only the outbound callback writes to a serial
    handle. *)
Theorem directions_are_separate w h r msg e s :
  sent (step (Run w) s) = sent s
  /\ sent (step (MidiIn msg e) s) = sent s
  /\ sent (step Signal s) = sent s
  /\ all_written (step (Run w) s) = all_written s
  /\ all_written (step (Worker h r) s) = all_written s
  /\ all_written (step Signal s) = all_written s.
Proof.
  split_and!; apply directions_aux; done.
Qed.

(** X20. An open that succeeds adds one handle, and the next step of the
    supervisor registers the interrupt and the MIDI callback on it, starts
    its reader and waits; nothing is printed and nothing is slept. *)
Theorem open_success_sets_up p w w' s :
  pc s = POpenCall p -> open_error w = None ->
  pc (exec [Run w; Run w'] s) = PWait (length (conns s))
  /\ conns (exec [Run w; Run w'] s)
     = conns s ++ [conn_thread Running new_conn]
  /\ callback (exec [Run w; Run w'] s) = Some (length (conns s))
  /\ _interrupt (exec [Run w; Run w'] s) = Some (length (conns s))
  /\ reader_running (length (conns s)) (exec [Run w; Run w'] s) = true
  /\ open_calls (exec [Run w; Run w'] s) = open_calls s ++ [p]
  /\ out (exec [Run w; Run w'] s) = out s
  /\ slept (exec [Run w; Run w'] s) = slept s.
Proof.
  intros Hpc Hw.
  destruct s as [p0 ss i cs cb mi mo sn o sl d oc], w as [ports ord oe];
    cbn in *; subst. unfold reader_running; cbn.
  rewrite !alter_last. cbn.
  rewrite lookup_app_r, Nat.sub_diag by done. done.
Qed.

(** X21. Leaving the wait, the supervisor sets the reader's stop event and
    closes the handle once; the MIDI callback stays registered, on the
    handle that is now closed.  With an interval that [time.sleep] accepts
    it then sleeps one interval and is back at the head of its loop, having
    printed nothing; with one that [time.sleep] rejects, [run] ends there
    with the exception, without a sleep and with the virtual ports left as
    they were. *)
Theorem teardown_closes_once h c w w' s :
  pc s = PWait h -> conns s !! h = Some c -> interrupt c = true ->
  conns (exec [Run w; Run w'] s) !! h
  = Some (conn_close (conn_stop_event true c))
  /\ callback (exec [Run w; Run w'] s) = callback s
  /\ (time_sleep_accepts (sleep_interval self) = true ->
        pc (exec [Run w; Run w'] s) = PLoopHead
        /\ slept (exec [Run w; Run w'] s) = slept s ++ [sleep_interval self]
        /\ out (exec [Run w; Run w'] s) = out s)
  /\ (time_sleep_accepts (sleep_interval self) = false ->
        (exists e, pc (exec [Run w; Run w'] s) = PRaised e
                   /\ out (exec [Run w; Run w'] s) = out s ++ [Traceback e])
        /\ slept (exec [Run w; Run w'] s) = slept s
        /\ midi_in_closes (exec [Run w; Run w'] s) = midi_in_closes s
        /\ midi_out_closes (exec [Run w; Run w'] s) = midi_out_closes s).
Proof.
  intros Hpc Hc Hi.
  destruct s as [p0 ss i cs cb mi mo sn o sl d oc]; cbn in Hpc, Hc; subst.
  cbn [exec fold_left step].
  assert (supervise py_eval self w
            {| pc := PWait h; should_stop := ss; _interrupt := i;
               conns := cs; callback := cb; midi_in_closes := mi;
               midi_out_closes := mo; sent := sn; out := o; slept := sl;
               discoveries := d; open_calls := oc |}
          = {| pc := PTeardown h; should_stop := ss; _interrupt := i;
               conns := cs; callback := cb; midi_in_closes := mi;
               midi_out_closes := mo; sent := sn; out := o; slept := sl;
               discoveries := d; open_calls := oc |}) as ->.
  { unfold supervise, run; cbn. by rewrite Hc, Hi. }
  unfold supervise, run, sleep. cbn -[time_sleep_accepts Qle_bool].
  destruct (time_sleep_accepts (sleep_interval self));
    cbn -[Qle_bool]; repeat (case_match; cbn);
    rewrite !list_lookup_alter_eq, Hc; split_and!; try done.
  all: intros _; split_and!; eauto.
Qed.
End More.

(** * The statements on the sample inputs *)

(** C7 on three attached ports, the middle one without a manufacturer. *)
Lemma findDevices_skips_raising_witness :
  inspect bare_uart
    ∉ findDevices arduino_only (Some "d.usb_manufacturer.strip() == 'Arduino'"%string)
        ([uno] ++ bare_uart :: [uno]).
Proof.
  apply (findDevices_skips_raising arduino_only
           (Some "d.usb_manufacturer.strip() == 'Arduino'"%string)
           [uno] bare_uart [uno] (OtherException "AttributeError"));
    vm_compute; reflexivity.
Defined.

(** C2 on five reads, two of them three bytes long. *)
Lemma inbound_frames_forwarded_witness :
  sent (exec arduino_only test_bridge
          (map (fun data => Worker 0 (Data data))
               [note_on; program_change; []; identity_request; note_on])
          (exec arduino_only test_bridge to_active init))
  = [note_on; note_on].
Proof.
  apply (inbound_frames_forwarded arduino_only test_bridge 0
           [note_on; program_change; []; identity_request; note_on]
           (exec arduino_only test_bridge to_active init)).
  vm_compute; reflexivity.
Defined.

(** C3 on a note-on whose write raises [OSError]. *)
Lemma outbound_write_error_stops_bridge_witness :
  pc (exec arduino_only test_bridge
        [Run open_ok; Run open_ok; Run open_ok; Run open_ok]
        (step arduino_only test_bridge (MidiIn note_on (Some OSError))
           (exec arduino_only test_bridge to_active init)))
  = PStopped.
Proof.
  destruct (outbound_write_error_stops_bridge arduino_only test_bridge
              to_active 0 note_on OSError
              [Run open_ok; Run open_ok; Run open_ok; Run open_ok])
    as (_ & _ & H & _).
  - reflexivity.
  - simpl. lia.
  - apply H; [reflexivity|simpl; lia].
Defined.

(** C10 on a program change, which has two bytes. *)
Lemma short_message_stops_bridge_witness :
  should_stop (step arduino_only test_bridge (MidiIn program_change None)
                 (exec arduino_only test_bridge to_active init)) = true.
Proof.
  destruct (short_message_stops_bridge arduino_only test_bridge
              to_active 0 program_change None [])
    as (_ & _ & _ & H & _).
  - reflexivity.
  - right. reflexivity.
  - exact H.
Defined.

(** C4, as amended, on a note-on. *)
Lemma outbound_writes_whole_message_witness :
  conns (step arduino_only test_bridge (MidiIn note_on None)
           (exec arduino_only test_bridge to_active init))
  = alter (conn_write note_on) 0
      (conns (exec arduino_only test_bridge to_active init)).
Proof.
  apply (outbound_writes_whole_message arduino_only test_bridge note_on 0).
  - reflexivity.
  - simpl. lia.
Defined.

(** C6, as amended, on a stop that arrives during the first open, which
    then fails. *)
Lemma open_serial_retries_until_stop_witness :
  slept (step arduino_only test_bridge (Run open_busy)
           (step arduino_only test_bridge Signal
              (step arduino_only test_bridge (Run open_ok)
                 (exec arduino_only test_bridge [Run open_ok; Run open_ok]
                    init))))
  = slept (exec arduino_only test_bridge [Run open_ok; Run open_ok] init)
    ++ [sleep_interval test_bridge].
Proof.
  destruct (open_serial_retries_until_stop arduino_only test_bridge
              "/dev/ttyTEST"
              (exec arduino_only test_bridge [Run open_ok; Run open_ok] init)
              2 "busy" [Run open_busy; Run open_ok; Run open_ok])
    as (_ & _ & H).
  - reflexivity.
  - destruct (H eq_refl open_ok) as (_ & _ & _ & H' & _).
    destruct (H' open_busy "busy"%string) as (H'' & _).
    + reflexivity.
    + reflexivity.
    + exact H''.
Defined.


(** C8 on a run that is stopped after its connection came up. *)
Lemma manual_device_bypasses_discovery_witness :
  discoveries
    (exec arduino_only test_bridge
       (to_active ++ [Signal; Run open_ok; Run open_ok]) init) = 0.
Proof.
  apply (manual_device_bypasses_discovery arduino_only test_bridge). reflexivity.
Defined.

(** C1 on a reader whose first read raises [OSError]. *)
Lemma reader_error_not_signalled_witness :
  pc (step arduino_only test_bridge (Worker 0 (ReadRaises OSError))
        (exec arduino_only test_bridge to_active init)) = PWait 0.
Proof.
  apply (reader_error_not_signalled arduino_only test_bridge 0
           (conn_thread Running new_conn) OSError []); reflexivity.
Defined.

(** C5 on a stop that arrives during the first open. *)
Lemma stop_during_open_is_lost_witness :
  pc (exec arduino_only test_bridge
        (to_open_call ++ [Signal; Run open_ok; Run open_ok]) init) = PWait 0.
Proof.
  apply (stop_during_open_is_lost arduino_only test_bridge to_open_call
           "/dev/ttyTEST" open_ok []); reflexivity.
Defined.

(** * Where the claims as written fail *)

(** C4: the six bytes of an identity request are written, not its first
    three. *)
Lemma outbound_writes_beyond_three_bytes :
  written <$> conns (step arduino_only test_bridge (MidiIn identity_request None)
                       (exec arduino_only test_bridge to_active init))
  <> [[take 3 identity_request]].
Proof. vm_compute. discriminate. Qed.

(** C6: the stop flag is set while the open is underway, the open fails,
    and the loop, still inside [open_serial], sleeps the whole interval
    before it looks at the flag. *)
Lemma stop_during_open_still_sleeps :
  should_stop (step arduino_only test_bridge Signal
                 (exec arduino_only test_bridge to_open_call init)) = true
  /\ in_retry_loop (step arduino_only test_bridge Signal
                      (exec arduino_only test_bridge to_open_call init)) = true
  /\ slept (exec arduino_only test_bridge [Signal]
              (exec arduino_only test_bridge to_open_call init)) = []
  /\ slept (exec arduino_only test_bridge [Signal; Run open_busy]
              (exec arduino_only test_bridge to_open_call init)) = [3 # 10]
  /\ in_retry_loop (exec arduino_only test_bridge [Signal; Run open_busy]
                      (exec arduino_only test_bridge to_open_call init)) = true.
Proof. vm_compute. split_and!; reflexivity. Qed.


(** * The further statements on the sample inputs *)

(** X2 on the empty string as predicate, the second port completing
    first. *)
Lemma findDevices_without_predicate_witness :
  findDevices arduino_only (Some ""%string) (as_completed [uno; bare_uart] [1])
  = inspect <$> [bare_uart; uno].
Proof.
  apply (findDevices_without_predicate arduino_only (Some ""%string)
           [uno; bare_uart] [1]).
  reflexivity.
Defined.


(** X9 on a stop followed by more of everything. *)
Lemma stop_request_is_never_withdrawn_witness :
  should_stop
    (exec arduino_only test_bridge
       ((to_active ++ [Signal])
        ++ [Worker 0 (Data note_on); MidiIn note_on None; Run open_ok])
       init) = true.
Proof.
  apply (stop_request_is_never_withdrawn arduino_only test_bridge). reflexivity.
Defined.

(** X10 on a run that has returned. *)
Lemma stopped_is_terminal_witness :
  pc (exec arduino_only test_bridge
        [Signal; MidiIn program_change None; Run open_busy]
        (exec arduino_only test_bridge
           (to_active ++ [Signal; Run open_ok; Run open_ok; Run open_ok;
                          Run open_ok]) init)) = PStopped.
Proof.
  apply (stopped_is_terminal arduino_only test_bridge). reflexivity.
Defined.

(** X12 on a run whose reader fails and whose callback writes. *)
Lemma quiet_schedule_never_exits_witness :
  should_stop
    (exec arduino_only test_bridge
       [Run open_ok; Run open_ok; Run open_busy; Run open_ok; Run open_ok;
        Run open_ok; Worker 0 (ReadRaises OSError); MidiIn note_on None;
        Run open_ok] init) = false.
Proof.
  apply (quiet_schedule_never_exits arduino_only test_bridge).
  repeat (apply Forall_cons_2; [reflexivity|]). apply Forall_nil_2.
Defined.

(** X13 on three passes that find only a port without manufacturer. *)
Lemma idle_discovery_retries_witness :
  exec arduino_only auto_bridge (map Run [uart_only; uart_only; uart_only])
    (exec arduino_only auto_bridge [Run uart_only] init)
  = set_out
      (out (exec arduino_only auto_bridge [Run uart_only] init)
       ++ replicate 3 (Print INFO ["No serial devices found"%string]))
      (set_slept
         (slept (exec arduino_only auto_bridge [Run uart_only] init)
          ++ replicate 3 (sleep_interval auto_bridge))
         (set_discoveries
            (discoveries (exec arduino_only auto_bridge [Run uart_only] init) + 3)
            (exec arduino_only auto_bridge [Run uart_only] init))).
Proof.
  apply (idle_discovery_retries arduino_only auto_bridge
           [uart_only; uart_only; uart_only]).
  - reflexivity.
  - reflexivity.
  - reflexivity.
  - reflexivity.
  - repeat (apply Forall_cons_2; [reflexivity|]). apply Forall_nil_2.
Defined.

(** X14 on two Arduinos, the one enumerated second completing first. *)
Lemma first_match_wins_witness :
  pc (step arduino_only auto_bridge (Run nano_before_uno)
        (exec arduino_only auto_bridge [Run uart_only] init))
  = POpenHead "/dev/ttyUSB0".
Proof.
  apply (first_match_wins arduino_only auto_bridge [] nano [uno]
           nano_before_uno open_ok).
  - reflexivity.
  - reflexivity.
  - reflexivity.
  - reflexivity.
  - apply Forall_nil_2.
  - reflexivity.
Defined.


(** X20 on the first open of the manual device. *)
Lemma open_success_sets_up_witness :
  pc (exec arduino_only test_bridge [Run open_ok; Run open_ok]
        (exec arduino_only test_bridge to_open_call init)) = PWait 0.
Proof.
  apply (open_success_sets_up arduino_only test_bridge "/dev/ttyTEST"
           open_ok open_ok); reflexivity.
Defined.

(** X21 on the teardown that follows a signal. *)
Lemma teardown_closes_once_witness :
  pc (exec arduino_only test_bridge [Run open_ok; Run open_ok]
        (exec arduino_only test_bridge (to_active ++ [Signal]) init))
  = PLoopHead.
Proof.
  destruct (teardown_closes_once arduino_only test_bridge 0
              (conn_interrupt true (conn_thread Running new_conn))
              open_ok open_ok
              (exec arduino_only test_bridge (to_active ++ [Signal]) init))
    as (_ & _ & H & _).
  - reflexivity.
  - reflexivity.
  - reflexivity.
  - apply H. reflexivity.
Defined.
